(** * onenote_export: the export crawler of [onenote_export.py]

    A shallow embedding of the crawler (the fetch client [get], the
    pagination reader [get_json], the selection filter [filter_items], the
    hierarchy walker [download_notebooks] ... [download_pages], the page
    materializer [download_page] and the attachment resolver
    [download_attachments]) as functions in a state-and-exception monad over
    an explicit world: the output file tree, the log of HTTP requests, the
    sleeps and the lines printed.  *)

From Stdlib Require Import ZArith String Ascii List Lia.
From stdpp Require Import base option list gmap strings pretty sorting.

Local Open Scope string_scope.
Local Open Scope list_scope.

(** ** Python values *)

(** The scalar JSON values the crawler reads out of an item: [None]
    (JSON null), integers and strings.  JSON booleans, fractional numbers and
    nested containers are never inspected by the code and are not modelled. *)
Inductive val :=
  | VNone
  | VInt (z : Z)
  | VStr (s : string).

#[global] Instance val_eq_dec : EqDecision val.
Proof. solve_decision. Defined.

(** An item of a list response (a notebook, section group, section or page):
    a Python [dict] with string keys. *)
Abbreviation item := (gmap string val).

(** The exceptions the modelled code can raise. *)
Inductive exn :=
  | AttributeError
  | KeyError
  | TypeError
  | RuntimeError
  | ValueError
  | UnboundLocalError
  | HTTPError
  | FileExistsError
  | FileNotFoundError
  | NotADirectoryError
  | IsADirectoryError.

#[global] Instance exn_eq_dec : EqDecision exn.
Proof. solve_decision. Defined.

(** A computation without effects that ends with a value or an exception. *)
#[global] Instance exn_ret : MRet (sum exn) := λ A a, inr a.
#[global] Instance exn_bind : MBind (sum exn) := λ A B f m,
  match m with
  | inl e => inl e
  | inr a => f a
  end.

(** [bool(v)]: Python truthiness, as used by [while next_page:]. *)
Definition truthy (v : val) : bool :=
  match v with
  | VNone => false
  | VInt z => negb (Z.eqb z 0)
  | VStr s => negb (String.eqb s "")
  end.

(** [str(v)], as used by f-strings and [print]. *)
Definition str_of (v : val) : string :=
  match v with
  | VNone => "None"
  | VInt z => pretty z
  | VStr s => s
  end.

(** [a < b] on values: defined between two integers and between two strings,
    a [TypeError] otherwise. *)
Definition val_lt (a b : val) : exn + bool :=
  match a, b with
  | VInt x, VInt y => inr (Z.ltb x y)
  | VStr x, VStr y => inr (String.ltb x y)
  | _, _ => inl TypeError
  end.

(** [s.split("/")]: never empty, one more field than there are slashes. *)
Fixpoint split_slash (s : string) : list string :=
  match s with
  | EmptyString => [EmptyString]
  | String c s' =>
      if Ascii.eqb c "/" then EmptyString :: split_slash s'
      else match split_slash s' with
           | [] => [String c EmptyString]
           | h :: t => String c h :: t
           end
  end.

(** [s.split("/")[-1]]. *)
Definition last_field (s : string) : string := List.last (split_slash s) EmptyString.

(** [needle in s] for strings. *)
Definition contains (needle s : string) : bool :=
  match String.index 0 needle s with Some _ => true | None => false end.

(** ** Paths ([pathlib.PurePosixPath]) *)

(** A path is the tuple of its [parts]; an absolute path starts with the
    part ["/"] (or ["//"], which POSIX keeps apart).  The empty tuple is the
    current directory.  [".."] is an ordinary part, as in pathlib. *)
Abbreviation Path := (list string).

Definition is_component (s : string) : bool :=
  negb (String.eqb s "") && negb (String.eqb s ".").

Definition components (s : string) : list string :=
  List.filter is_component (split_slash s).

Definition root_of (s : string) : list string :=
  if String.prefix "///" s then ["/"]
  else if String.prefix "//" s then ["//"]
  else if String.prefix "/" s then ["/"]
  else [].

(** [Path(s)]. *)
Definition parse_path (s : string) : Path := root_of s ++ components s.

(** [p / s]: an absolute right operand replaces the left one. *)
Definition join (p : Path) (s : string) : Path :=
  if String.prefix "/" s then parse_path s else p ++ components s.

Infix "</>" := join (at level 40, left associativity).

(** [p.parent]. *)
Definition parent (p : Path) : Path :=
  match p with
  | [] => []
  | [r] => if String.prefix "/" r then [r] else []
  | _ => take (length p - 1)%nat p
  end.

Definition is_anchor (p : Path) : bool :=
  match p with
  | [] => true
  | [r] => String.prefix "/" r
  | _ => false
  end.

(** [str(p)]. *)
Definition path_str (p : Path) : string :=
  match p with
  | [] => "."
  | r :: rest =>
      if String.prefix "/" r then r +:+ String.concat "/" rest
      else String.concat "/" p
  end.

(** ** The output file tree *)

Inductive node :=
  | Dir
  | File (data : string).

#[global] Instance node_eq_dec : EqDecision node.
Proof. solve_decision. Defined.

Abbreviation tree := (gmap Path node).

(** What is at [p]: the current directory and the root always exist. *)
Definition stat (fs : tree) (p : Path) : option node :=
  if is_anchor p then Some Dir else fs !! p.

(** [p.exists()]. *)
Definition exists_ (fs : tree) (p : Path) : bool :=
  match stat fs p with Some _ => true | None => false end.

(** [p.is_dir()]. *)
Definition is_dir (fs : tree) (p : Path) : bool :=
  match stat fs p with Some Dir => true | _ => false end.

(** [os.mkdir(p)]. *)
Definition os_mkdir (fs : tree) (p : Path) : exn + tree :=
  match stat fs p with
  | Some _ => inl FileExistsError
  | None =>
      match stat fs (parent p) with
      | Some Dir => inr (<[p := Dir]> fs)
      | Some (File _) => inl NotADirectoryError
      | None => inl FileNotFoundError
      end
  end.

(** [p.mkdir(exist_ok=True)]. *)
Definition mkdir_exist_ok (fs : tree) (p : Path) : exn + tree :=
  match os_mkdir fs p with
  | inr fs' => inr fs'
  | inl FileNotFoundError => inl FileNotFoundError
  | inl e => if is_dir fs p then inr fs else inl e
  end.

(** [p.mkdir(parents=True, exist_ok=True)]; [n] bounds the number of missing
    ancestors, [length p] always suffices. *)
Fixpoint mkdir_parents_go (n : nat) (fs : tree) (p : Path) : exn + tree :=
  match os_mkdir fs p with
  | inr fs' => inr fs'
  | inl FileNotFoundError =>
      match n with
      | O => inl FileNotFoundError
      | S n' =>
          if decide (parent p = p) then inl FileNotFoundError
          else match mkdir_parents_go n' fs (parent p) with
               | inl e => inl e
               | inr fs1 => mkdir_exist_ok fs1 p
               end
      end
  | inl e => if is_dir fs p then inr fs else inl e
  end.

Definition mkdir_parents (fs : tree) (p : Path) : exn + tree :=
  mkdir_parents_go (length p) fs p.

(** [with open(p, "w") as f: f.write(data)] (also mode ["wb"]). *)
Definition write_file (fs : tree) (p : Path) (data : string) : exn + tree :=
  match stat fs p with
  | Some Dir => inl IsADirectoryError
  | _ =>
      match stat fs (parent p) with
      | Some Dir => inr (<[p := File data]> fs)
      | Some (File _) => inl NotADirectoryError
      | None => inl FileNotFoundError
      end
  end.

(** ** The remote service *)

(** The body of a list response after [.json()]: the two keys the crawler
    reads, each possibly absent. *)
Record listing := {
  value : option (list item);
  odata_nextLink : option val;
}.

(** An HTTP response: its status, its body ([.text], [.content]) and what
    [.json()] makes of the body ([None] when the body is not JSON). *)
Record response := {
  status_code : Z;
  text : string;
  json : option listing;
}.

(** The remote answers the [n]-th request of a run (counting from 0) for a
    URL; a remote that does not look at [n] is one that does not change. *)
Abbreviation Remote := (nat → string → response).

(** ** The world and the monad *)

Record World := {
  fs : tree;                (* the output file tree *)
  requests : list string;   (* URLs passed to graph_client.get, oldest first *)
  slept : list Z;           (* arguments of time.sleep, oldest first *)
  stdout : list string;     (* lines printed, oldest first *)
}.

Definition set_fs (f : tree) (w : World) : World :=
  {| fs := f; requests := requests w; slept := slept w; stdout := stdout w |}.

(** How a call ends: with a value, with an exception, or not within the
    number of loop iterations explored. *)
Inductive result (A : Type) :=
  | Ok (a : A) (w : World)
  | Raise (e : exn) (w : World)
  | Timeout.
Arguments Ok {A} a w.
Arguments Raise {A} e w.
Arguments Timeout {A}.

Definition M (A : Type) : Type := World → result A.

#[global] Instance M_ret : MRet M := λ A a w, Ok a w.
#[global] Instance M_bind : MBind M := λ A B f m w,
  match m w with
  | Ok a w' => f a w'
  | Raise e w' => Raise e w'
  | Timeout => Timeout
  end.

Definition raise {A} (e : exn) : M A := λ w, Raise e w.
Definition timeout {A} : M A := λ _, Timeout.

(** Lift a pure fallible computation. *)
Definition lift {A} (r : exn + A) : M A :=
  match r with inl e => raise e | inr a => mret a end.

(** Lift a file-tree operation. *)
Definition on_fs (op : tree → exn + tree) : M unit := λ w,
  match op (fs w) with
  | inl e => Raise e w
  | inr f => Ok tt (set_fs f w)
  end.

Definition print (line : string) : M unit := λ w,
  Ok tt {| fs := fs w; requests := requests w; slept := slept w;
           stdout := stdout w ++ [line] |}.

Definition sleep (seconds : Z) : M unit := λ w,
  Ok tt {| fs := fs w; requests := requests w; slept := slept w ++ [seconds];
           stdout := stdout w |}.

Definition path_exists (p : Path) : M bool := λ w, Ok (exists_ (fs w) p) w.

(** [for x in l: body(x)]. *)
Fixpoint for_each {A} (l : list A) (body : A → M unit) : M unit :=
  match l with
  | [] => mret tt
  | x :: l' => body x ;; for_each l' body
  end.

(** [d[k]]. *)
Definition getitem (d : item) (k : string) : M val :=
  match d !! k with
  | Some v => mret v
  | None => raise KeyError
  end.

(** [v + suffix] for a string literal [suffix]. *)
Definition add_str (v : val) (suffix : string) : M string :=
  match v with
  | VStr s => mret (s +:+ suffix)
  | _ => raise TypeError
  end.

Fixpoint repeat_str (n : nat) (s : string) : string :=
  match n with
  | O => ""
  | S n' => s +:+ repeat_str n' s
  end.

(** [indent_print(depth, text)] (lines 160-161). *)
Definition indent_print (depth : nat) (text : string) : M unit :=
  print (repeat_str depth "  " +:+ text).

(** ** Regular-expression passes of the attachment resolver *)

Definition newline : ascii := ascii_of_nat 10.

Fixpoint strip_prefix (pre s : string) : option string :=
  match pre, s with
  | EmptyString, _ => Some s
  | String a pre', String b s' => if Ascii.eqb a b then strip_prefix pre' s' else None
  | String _ _, EmptyString => None
  end.

(** The lazy [.*?\/>] under [re.DOTALL]: the text up to the first ["/>"], and
    what follows it. *)
Fixpoint find_close (s : string) : option (string * string) :=
  match s with
  | EmptyString => None
  | String c s' =>
      match strip_prefix "/>" s with
      | Some rest => Some (EmptyString, rest)
      | None =>
          match find_close s' with
          | Some (inner, rest) => Some (String c inner, rest)
          | None => None
          end
      end
  end.

(** The same without [re.DOTALL]: [.] does not match a newline. *)
Fixpoint find_close_line (s : string) : option (string * string) :=
  match s with
  | EmptyString => None
  | String c s' =>
      match strip_prefix "/>" s with
      | Some rest => Some (EmptyString, rest)
      | None =>
          if Ascii.eqb c newline then None
          else match find_close_line s' with
               | Some (inner, rest) => Some (String c inner, rest)
               | None => None
               end
      end
  end.

(** The lazy [(.+?)\/>] without [re.DOTALL]: at least one character. *)
Definition find_close_line1 (s : string) : option (string * string) :=
  match s with
  | EmptyString => None
  | String c s' =>
      if Ascii.eqb c newline then None
      else match find_close_line s' with
           | Some (inner, rest) => Some (String c inner, rest)
           | None => None
           end
  end.

(** [re.sub(opening + ".*?\/>", repl, s, flags=re.DOTALL)] with a function
    [repl]: matches are found left to right and do not overlap, [repl] is
    called on each as it is found.  [n] bounds the scan; [S (length s)]
    always suffices. *)
Fixpoint sub_tags (n : nat) (opening : string) (repl : string → M string)
    (s : string) : M string :=
  match s with
  | EmptyString => mret EmptyString
  | String c s' =>
      match n with
      | O => timeout
      | S n' =>
          match strip_prefix opening s ≫= find_close with
          | Some (inner, rest) =>
              r ← repl (opening +:+ inner +:+ "/>");
              t ← sub_tags n' opening repl rest;
              mret (r +:+ t)
          | None =>
              t ← sub_tags n' opening repl s';
              mret (String c t)
          end
      end
  end.

(** [re.sub(r'<object (.+?)\/>', r'<object \1></object>', s)] (line 156). *)
Fixpoint close_objects (n : nat) (s : string) : string :=
  match s with
  | EmptyString => EmptyString
  | String c s' =>
      match n with
      | O => s
      | S n' =>
          match strip_prefix "<object " s ≫= find_close_line1 with
          | Some (inner, rest) =>
              "<object " +:+ inner +:+ "></object>" +:+ close_objects n' rest
          | None => String c (close_objects n' s')
          end
      end
  end.

(** ** Python dictionaries of tag attributes *)

(** [props]: a [dict] in insertion order.  The value of an attribute is a
    string, or [None] for an attribute that is written without a value
    ([<img hidden />]): [HTMLParser] hands [(name, None)] to
    [handle_starttag] for it. *)
Abbreviation props := (list (string * option string)).

(** [d.get(k)]: the outer [None] is the missing key. *)
Fixpoint props_get (d : props) (k : string) : option (option string) :=
  match d with
  | [] => None
  | (k', v) :: d' => if String.eqb k' k then Some v else props_get d' k
  end.

(** [d[k] = v]: an existing key keeps its place. *)
Fixpoint props_set (d : props) (k : string) (v : option string) : props :=
  match d with
  | [] => [(k, v)]
  | (k', v') :: d' =>
      if String.eqb k' k then (k, v) :: d' else (k', v') :: props_set d' k v
  end.

(** [{k: v for k, v in attrs}]. *)
Definition props_of (attrs : list (string * option string)) : props :=
  fold_left (λ d kv, props_set d kv.1 kv.2) attrs [].

(** [d[k]] on [props]. *)
Definition props_item (d : props) (k : string) : M (option string) :=
  match props_get d k with
  | Some v => mret v
  | None => raise KeyError
  end.

(** The attributes as strings, when every one of them has a value. *)
Definition attrib (d : props) : option (list (string * string)) :=
  mapM (λ kv : string * option string, option_map (pair kv.1) kv.2) d.

(** A URL read from an attribute, as the value handed to [get]. *)
Definition url_of (v : option string) : val :=
  match v with
  | Some u => VStr u
  | None => VNone
  end.

(** ** Library functions the crawler calls *)

(** What the code imports and this development does not look into. *)
Record Externals := {
  (** [fnmatch.fnmatch(name, pattern)] *)
  fnmatch : string → string → bool;
  (** [str.lower], the lower-casing of Unicode text *)
  str_lower : string → string;
  (** [pathvalidate.sanitize_filename] and [sanitize_filepath] *)
  sanitize_filename : string → string;
  sanitize_filepath : string → string;
  (** [HTMLParser.feed] on one tag: the attribute list handed to
      [handle_starttag], an attribute without a value paired with [None];
      no list at all when the parser finds no start tag (so that
      [parser.attrs] is never set) *)
  tag_attrs : string → option (list (string * option string));
  (** [ElementTree.tostring(Element(tag, attrib), encoding='unicode')] for
      attributes that are all strings *)
  tostring : string → list (string * string) → string;
  (** [re.sub(r'.*\-(.+)?\!1-(.+?)\/\$value', r'\1', url)] (line 115) *)
  image_stem : string → string;
  (** the restyling of [download_page] (lines 244-299): a chain of [re.sub]
      and [str.replace] on the page content, which can raise ([strptime] on
      a date that is none) *)
  restyle : string → string → exn + string;
}.

(** ** The crawler *)

Definition graph_url : string := "https://graph.microsoft.com/v1.0".

(** The list endpoint of line 175. *)
Definition notebooks_url : string := graph_url +:+ "/me/onenote/notebooks".

(** [level_dirs]: slot 0 is the section directory, slots 1 and 2 the anchors
    (slot 3 is never read). *)
Record level_dirs := {
  ld0 : Path;
  ld1 : string;
  ld2 : string;
}.

Section Crawler.

Variable ext : Externals.
Variable remote : Remote.

(** How many iterations of each of the two [while] loops are explored. *)
Variable fuel : nat.

(** *** Fetch client (lines 72-92) *)

(** [graph_client.get(url, params=params)]; [params] is [None] at every
    call of the crawler. *)
Definition client_get (url : string) : M response := λ w,
  Ok (remote (length (requests w)) url)
     {| fs := fs w; requests := requests w ++ [url]; slept := slept w;
        stdout := stdout w |}.

(** [resp.raise_for_status()]: client and server errors raise. *)
Definition raise_for_status (resp : response) : M unit :=
  if Z.leb 400 (status_code resp) && Z.ltb (status_code resp) 600
  then raise HTTPError else mret tt.

Fixpoint get_loop (n : nat) (url : string) (indent : nat) : M (option response) :=
  match n with
  | O => timeout
  | S n' =>
      resp ← client_get url;
      if Z.eqb (status_code resp) 429 then
        indent_print indent "Too many requests, waiting 300s and trying again.";;
        sleep 300;;
        get_loop n' url indent
      else if Z.eqb (status_code resp) 500 then
        indent_print indent "Error 500, skipping this page.";;
        mret None
      else if Z.eqb (status_code resp) 504 then
        indent_print indent
          "Request timed out, probably due to a large attachment. Skipping.";;
        mret None
      else
        raise_for_status resp;;
        mret (Some resp)
  end.

(** [get(graph_client, url, indent=indent)].  The client only takes a
    string for a URL; [TypeError] stands for what it raises on anything
    else. *)
Definition get (url : val) (indent : nat) : M (option response) :=
  match url with
  | VStr u => get_loop fuel u indent
  | _ => raise TypeError
  end.

(** *** Pagination reader (lines 60-69) *)

Fixpoint get_json_loop (n : nat) (next_page : val) (values : list item) : M (list item) :=
  if truthy next_page then
    match n with
    | O => timeout
    | S n' =>
        r ← get next_page 0;
        match r with
        | None => raise AttributeError            (* None.json() *)
        | Some resp =>
            match json resp with
            | None => raise ValueError            (* the body is not JSON *)
            | Some body =>
                match value body with
                | None => raise RuntimeError
                | Some batch =>
                    get_json_loop n' (default VNone (odata_nextLink body))
                                  (values ++ batch)
                end
            end
        end
    end
  else mret values.

(** [get_json(graph_client, url)]; no caller passes [params] or [indent],
    which stay [None] and 0. *)
Definition get_json (url : val) : M (list item) := get_json_loop fuel url [].

(** *** Selection filter (lines 164-171) *)

(** [item.get('displayName', item.get('title'))]. *)
Definition item_name (it : item) : val :=
  match it !! "displayName" with
  | Some v => v
  | None => default VNone (it !! "title")
  end.

(** [v.lower()]. *)
Definition val_lower (v : val) : exn + string :=
  match v with
  | VStr s => inr (str_lower ext s)
  | _ => inl AttributeError
  end.

(** The list comprehension of lines 167-168. *)
Fixpoint matching (items : list item) (pattern : string) : exn + list item :=
  match items with
  | [] => inr []
  | it :: rest =>
      match val_lower (item_name it) with
      | inl e => inl e
      | inr name =>
          match matching rest pattern with
          | inl e => inl e
          | inr kept =>
              inr (if fnmatch ext name (str_lower ext pattern) then it :: kept else kept)
          end
      end
  end.

Definition filter_items (items : list item) (select : list string)
    (name : string) (indent : nat) : M (list item * list string) :=
  match select with
  | [] => mret (items, select)
  | first :: others =>
      items' ← lift (matching items first);
      (if decide (items' = []) then
         indent_print indent ("No " +:+ name +:+ " found matching " +:+ first)
       else mret tt);;
      mret (items', others)
  end.

(** *** Attachment resolver (lines 95-157) *)

Section Attachments.

Variables (out_dir : Path) (page_title : string) (indent : nat).

Definition dir_name : string := page_title +:+ ".FILES".
Definition attachment_dir : Path := out_dir </> dir_name.

(** [parser.feed(tag); props = parser.attrs]. *)
Definition parse_props (tag : string) : M props :=
  match tag_attrs ext tag with
  | Some attrs => mret (props_of attrs)
  | None => raise AttributeError
  end.

(** [generate_html] (lines 103-105).  [Element] takes any attribute
    dictionary; [tostring] raises a [TypeError] on a value that is [None]. *)
Definition generate_html (tag : string) (p : props) : exn + string :=
  match attrib p with
  | Some a => inr (tostring ext tag a)
  | None => inl TypeError
  end.

(** Lines 107-129. *)
Definition download_image (tag : string) : M string :=
  p ← parse_props tag;
  src ← props_item p "src";
  let image_url := default src (props_get p "data-fullres-src") in
  src_type ← props_item p "data-src-type";
  image_type ←
    match default src_type (props_get p "data-fullres-src-type") with
    | Some t => mret (last_field t)
    | None => raise AttributeError                   (* None.split *)
    end;
  image_url ←
    match image_url with
    | Some u => mret u
    | None => raise TypeError                        (* re.sub on None *)
    end;
  let file_name := image_stem ext image_url +:+ "." +:+ image_type in
  let rewritten :=
    generate_html "img"
      (List.filter (λ kv, negb (contains "data-fullres-src" kv.1))
                   (props_set p "src" (Some (dir_name +:+ "/" +:+ file_name)))) in
  present ← path_exists (attachment_dir </> file_name);
  if (present : bool) then
    indent_print indent ("Image " +:+ file_name +:+ " already downloaded; skipping.");;
    lift rewritten
  else
    req ← get (VStr image_url) indent;
    match req with
    | None => mret tag
    | Some r =>
        let img := text r in
        indent_print indent
          ("Downloaded image of " +:+ pretty (String.length img) +:+ " bytes.");;
        on_fs (λ t, mkdir_exist_ok t attachment_dir);;
        on_fs (λ t, write_file t (attachment_dir </> file_name) img);;
        lift rewritten
    end.

(** Lines 131-152. *)
Definition download_attachment (tag : string) : M string :=
  p ← parse_props tag;
  data_url ← props_item p "data";
  file_name ← props_item p "data-attachment";
  file_name ←
    match file_name with
    | Some f => mret f
    | None => raise TypeError                        (* attachment_dir / None *)
    end;
  let rewritten :=
    generate_html "object" (props_set p "data" (Some (dir_name +:+ "/" +:+ file_name))) in
  present ← path_exists (attachment_dir </> file_name);
  if (present : bool) then
    indent_print indent
      ("Attachment " +:+ file_name +:+ " already downloaded; skipping.");;
    lift rewritten
  else
    req ← get (url_of data_url) indent;
    match req with
    | None => mret tag
    | Some r =>
        let data := text r in
        indent_print indent
          ("Downloaded attachment " +:+ file_name +:+ " of "
           +:+ pretty (String.length data) +:+ " bytes.");;
        on_fs (λ t, mkdir_exist_ok t attachment_dir);;
        on_fs (λ t, write_file t (attachment_dir </> file_name) data);;
        lift rewritten
    end.

(** Lines 154-157. *)
Definition download_attachments (content : string) : M string :=
  content ← sub_tags (S (String.length content)) "<img " download_image content;
  content ← sub_tags (S (String.length content)) "<object " download_attachment content;
  mret (close_objects (String.length content) content).

End Attachments.

(** *** Page materializer (lines 234-302) *)

Definition download_page (page_url : val) (path : Path) (page_title : string)
    (indent : nat) : M unit :=
  let out_html := path </> (page_title +:+ ".html") in
  present ← path_exists out_html;
  if (present : bool) then
    indent_print indent "HTML file already exists; skipping this page"
  else
    on_fs (λ t, mkdir_parents t path);;
    response ← get page_url indent;
    match response with
    | None => mret tt
    | Some r =>
        let content := text r in
        indent_print indent ("length:" +:+ pretty (String.length content));;
        content ← lift (restyle ext content page_title);
        content ← download_attachments path page_title indent content;
        on_fs (λ t, write_file t out_html content)
    end.

(** *** Hierarchy walker (lines 174-232) *)

(** [a < b] on the [(order, page)] tuples of line 214: the first
    components that are not [==] decide, and two dicts have no order. *)
Definition tuple_lt (a b : val * item) : exn + bool :=
  if decide (a.1 = b.1) then
    if decide (a.2 = b.2) then inr false else inl TypeError
  else val_lt a.1 b.1.

(** [sorted]: every comparison of [list.sort] is a [<] between two
    entries; here an entry is inserted in front of the first one it is
    less than. *)
Fixpoint insert_sorted (x : val * item) (l : list (val * item)) : exn + list (val * item) :=
  match l with
  | [] => inr [x]
  | y :: l' =>
      match tuple_lt x y with
      | inl e => inl e
      | inr true => inr (x :: y :: l')
      | inr false =>
          match insert_sorted x l' with
          | inl e => inl e
          | inr r => inr (y :: r)
          end
      end
  end.

Fixpoint sorted_onto (acc : list (val * item)) (l : list (val * item)) : exn + list (val * item) :=
  match l with
  | [] => inr acc
  | x :: l' =>
      match insert_sorted x acc with
      | inl e => inl e
      | inr acc' => sorted_onto acc' l'
      end
  end.

Definition sorted (l : list (val * item)) : exn + list (val * item) := sorted_onto [] l.

(** [[(page['order'], page) for page in pages]]. *)
Fixpoint keyed (pages : list item) : exn + list (val * item) :=
  match pages with
  | [] => inr []
  | page :: rest =>
      match page !! "order" with
      | None => inl KeyError
      | Some o =>
          match keyed rest with
          | inl e => inl e
          | inr r => inr ((o, page) :: r)
          end
      end
  end.

(** The body of the loop of lines 219-232, with the variables it carries
    from one iteration to the next: [level_dirs] and [page_dir], which is
    unbound until a page of level 0, 1 or 2 has been seen. *)
Fixpoint pages_loop (pages : list (val * item)) (ld : level_dirs)
    (page_dir : option Path) (indent : nat) : M unit :=
  match pages with
  | [] => mret tt
  | (order, page) :: rest =>
      level ← getitem page "level";
      title ← getitem page "title";
      let page_title := sanitize_filepath ext (sanitize_filename ext (str_of title)) in
      indent_print indent ("Opening page: " +:+ page_title +:+ ".html");;
      let '(page_dir, ld) :=
        if decide (level = VInt 0) then
          (Some (ld0 ld),
           {| ld0 := ld0 ld; ld1 := page_title +:+ ".NOTES"; ld2 := ld2 ld |})
        else (page_dir, ld) in
      let '(page_dir, ld) :=
        if decide (level = VInt 1) then
          (Some (ld0 ld </> ld1 ld),
           {| ld0 := ld0 ld; ld1 := ld1 ld; ld2 := page_title +:+ ".NOTES" |})
        else (page_dir, ld) in
      let page_dir :=
        if decide (level = VInt 2) then Some (ld0 ld </> ld1 ld </> ld2 ld)
        else page_dir in
      url ← getitem page "contentUrl";
      dir ← match page_dir with
            | Some d => mret d
            | None => raise UnboundLocalError
            end;
      download_page url dir page_title (indent + 1);;
      pages_loop rest ld page_dir indent
  end.

Definition download_pages (pages : list item) (path : Path) (select : list string)
    (indent : nat) : M unit :=
  '(pages, select) ← filter_items pages select "pages" indent;
  pages ← lift (keyed pages ≫= sorted);
  pages_loop pages {| ld0 := path; ld1 := ""; ld2 := "" |} None indent.

Definition download_sections (sections : list item) (path : Path)
    (select : list string) (indent : nat) : M unit :=
  '(sections, select) ← filter_items sections select "sections" indent;
  for_each sections (λ sec,
    sec_name ← getitem sec "displayName";
    indent_print indent
      ("Opening subsection: " +:+ path_str path +:+ "/" +:+ str_of sec_name +:+ ".NOTES");;
    pages_url ← getitem sec "pagesUrl";
    pages_url ← add_str pages_url "?pagelevel=true";
    pages ← get_json (VStr pages_url);
    indent_print (indent + 1) ("Got " +:+ pretty (length pages) +:+ " pages.");;
    dir ← add_str sec_name ".NOTES";
    download_pages pages (path </> dir) select (indent + 1)).

Definition download_section_groups (section_groups : list item) (path : Path)
    (select : list string) (indent : nat) : M unit :=
  '(section_groups, select) ← filter_items section_groups select "section groups" indent;
  for_each section_groups (λ sg,
    sg_name ← getitem sg "displayName";
    indent_print indent ("Opening section group " +:+ str_of sg_name);;
    sections_url ← getitem sg "sectionsUrl";
    sections ← get_json sections_url;
    indent_print (indent + 1) ("Got " +:+ pretty (length sections) +:+ " sections.");;
    dir ← add_str sg_name ".SECTIONS";
    download_sections sections (path </> dir) select (indent + 1)).

Definition download_notebooks (path : Path) (select : list string) (indent : nat) : M unit :=
  notebooks ← get_json (VStr notebooks_url);
  indent_print 0 ("Got " +:+ pretty (length notebooks) +:+ " notebooks:");;
  print "---------------------------------------------";;
  for_each notebooks (λ n, print (str_of (default VNone (n !! "displayName"))));;
  print "---------------------------------------------";;
  '(notebooks, select) ← filter_items notebooks select "notebooks" indent;
  for_each notebooks (λ nb,
    nb_name ← getitem nb "displayName";
    indent_print indent ("Opening notebook " +:+ str_of nb_name);;
    sections_url ← getitem nb "sectionsUrl";
    sections ← get_json sections_url;
    groups_url ← getitem nb "sectionGroupsUrl";
    section_groups ← get_json groups_url;
    indent_print (indent + 1)
      ("Got " +:+ pretty (length sections) +:+ " sections and "
       +:+ pretty (length section_groups) +:+ " section groups.");;
    dir ← add_str nb_name ".SECTIONS";
    download_sections sections (path </> dir) select (indent + 1);;
    dir ← add_str nb_name ".SECTIONS";
    download_section_groups section_groups (path </> dir) select (indent + 1)).

End Crawler.

(** ** Statements about the fetch client *)

(** [requests.Response.ok] negated: the statuses [raise_for_status] raises
    on. *)
Definition is_error_status (s : Z) : bool := Z.leb 400 s && Z.ltb s 600.

(** The 500 and 504 the fetch client turns into [None]. *)
Definition is_unavailable (s : Z) : bool := Z.eqb s 500 || Z.eqb s 504.

(** The line [get] prints for a 500 or a 504. *)
Definition unavailable_line (indent : nat) (s : Z) : string :=
  repeat_str indent "  " +:+
  (if Z.eqb s 500 then "Error 500, skipping this page."
   else "Request timed out, probably due to a large attachment. Skipping.").

(** The world after [k] throttled attempts at [url]. *)
Definition throttled (k : nat) (url : string) (indent : nat) (w : World) : World :=
  {| fs := fs w;
     requests := requests w ++ replicate k url;
     slept := slept w ++ replicate k 300%Z;
     stdout := stdout w ++
       replicate k (repeat_str indent "  "
                    +:+ "Too many requests, waiting 300s and trying again.") |}.

(** The world after one more request for [url]. *)
Definition requested (url : string) (w : World) : World :=
  {| fs := fs w; requests := requests w ++ [url]; slept := slept w;
     stdout := stdout w |}.

Definition printed (line : string) (w : World) : World :=
  {| fs := fs w; requests := requests w; slept := slept w;
     stdout := stdout w ++ [line] |}.

(** How [get] ends on an answer that is not a 429. *)
Definition answer_outcome (indent : nat) (resp : response) (w : World)
    : result (option response) :=
  if is_unavailable (status_code resp) then
    Ok None (printed (unavailable_line indent (status_code resp)) w)
  else if is_error_status (status_code resp) then Raise HTTPError w
  else Ok (Some resp) w.


(** ** Statements about the pagination reader *)

(** An answer [get] hands to its caller at the first attempt. *)
Definition is_success (r : response) : bool :=
  negb (Z.eqb (status_code r) 429)
  && negb (is_unavailable (status_code r))
  && negb (is_error_status (status_code r)).

Definition prepend (batch : list item) (rest : exn + list item) : exn + list item :=
  match rest with
  | inl e => inl e
  | inr items => inr (batch ++ items)
  end.

(** The pagination reader in the words of the specification.
    [paginates remote t link urls res]: from the [t]-th request on, reading
    the list that starts at [link] fetches [urls], one after the other, and
    ends with [res]: each body is expected to carry the items field; a body
    without it is fatal; the continuation link is followed until a body has
    none; the batches are concatenated in the order of arrival. *)
Inductive paginates (remote : Remote) : nat → val → list string → exn + list item → Prop :=
  | paginates_end t link :
      truthy link = false →
      paginates remote t link [] (inr [])
  | paginates_no_items t url body :
      url ≠ "" →
      is_success (remote t url) = true →
      json (remote t url) = Some body →
      value body = None →
      paginates remote t (VStr url) [url] (inl RuntimeError)
  | paginates_batch t url body batch urls rest :
      url ≠ "" →
      is_success (remote t url) = true →
      json (remote t url) = Some body →
      value body = Some batch →
      paginates remote (S t) (default VNone (odata_nextLink body)) urls rest →
      paginates remote t (VStr url) (url :: urls) (prepend batch rest).

(** The world after the requests [urls]. *)
Definition fetched (urls : list string) (w : World) : World :=
  {| fs := fs w; requests := requests w ++ urls; slept := slept w; stdout := stdout w |}.

(** How a call that computes [res] in world [w] ends. *)
Definition ends_with {A} (res : exn + A) (w : World) : result A :=
  match res with
  | inl e => Raise e w
  | inr a => Ok a w
  end.

(** The answer to the next request of world [w], if it is for [url]. *)
Definition answers (remote : Remote) (w : World) (url : string) : response :=
  remote (length (requests w)) url.

(** ** Statements about the walk over the pages of a section *)

(** [page[k]] where the key is known to be there. *)
Definition page_field (page : item) (k : string) : val := default VNone (page !! k).

(** The integer behind [page['order']] and [page['level']]. *)
Definition int_of (v : val) : Z :=
  match v with
  | VInt z => z
  | _ => 0%Z
  end.

Definition page_order (page : item) : Z := int_of (page_field page "order").
Definition page_level (page : item) : Z := int_of (page_field page "level").

(** The file-name stem of a page: its title after both sanitizers. *)
Definition page_stem (ext : Externals) (page : item) : string :=
  sanitize_filepath ext (sanitize_filename ext (str_of (page_field page "title"))).

(** A page record as the data model has it: a title, a content URL, an
    integer order and a level of 0, 1 or 2. *)
Definition is_page (page : item) : Prop :=
  (∃ o, page !! "order" = Some (VInt o))
  ∧ (∃ l, page !! "level" = Some (VInt l) ∧ (0 ≤ l ≤ 2)%Z)
  ∧ is_Some (page !! "title")
  ∧ is_Some (page !! "contentUrl").

(** The walk in the words of the specification, over pages already in
    order: a level-0 page is materialized in the base directory and makes
    its title plus [.NOTES] the level-1 anchor; a level-1 page is
    materialized in [base/anchor1] and sets the level-2 anchor; a level-2
    page is materialized in [base/anchor1/anchor2]. *)
Fixpoint outline (ext : Externals) (remote : Remote) (fuel : nat) (pages : list item)
    (base : Path) (anchor1 anchor2 : string) (indent : nat) : M unit :=
  match pages with
  | [] => mret tt
  | page :: rest =>
      let stem := page_stem ext page in
      let url := page_field page "contentUrl" in
      indent_print indent ("Opening page: " +:+ stem +:+ ".html");;
      if decide (page_level page = 0%Z) then
        download_page ext remote fuel url base stem (indent + 1);;
        outline ext remote fuel rest base (stem +:+ ".NOTES") anchor2 indent
      else if decide (page_level page = 1%Z) then
        download_page ext remote fuel url (base </> anchor1) stem (indent + 1);;
        outline ext remote fuel rest base anchor1 (stem +:+ ".NOTES") indent
      else
        download_page ext remote fuel url (base </> anchor1 </> anchor2) stem (indent + 1);;
        outline ext remote fuel rest base anchor1 anchor2 indent
  end.

(** Entries of the list that is sorted: the key and the page. *)
Definition entry_key (x : val * item) : Z := int_of x.1.

Definition int_keyed (l : list (val * item)) : Prop :=
  Forall (λ x, ∃ z, x.1 = VInt z) l.

(** No two entries with the same key and different pages. *)
Definition tie_free (l : list (val * item)) : Prop :=
  ∀ x y, x ∈ l → y ∈ l → x.1 = y.1 → x.2 = y.2.

Definition key_le (x y : val * item) : Prop := (entry_key x ≤ entry_key y)%Z.

(** [(page['order'], page)]. *)
Definition entry_of (page : item) : val * item := (page_field page "order", page).

(** ** Statements about the selection filter *)

(** An item that has a name to match: a string under [displayName], or
    else under [title]. *)
Definition named (it : item) : Prop := ∃ s, item_name it = VStr s.

(** The case-insensitive glob match of a path segment against the name of
    an item. *)
Definition matches (ext : Externals) (segment : string) (it : item) : bool :=
  match item_name it with
  | VStr s => fnmatch ext (str_lower ext s) (str_lower ext segment)
  | _ => false
  end.

(** The items a segment list selects: all of them when the list is empty,
    those that match its first segment otherwise. *)
Definition selected (ext : Externals) (select : list string) (items : list item) : list item :=
  match select with
  | [] => items
  | segment :: _ => List.filter (matches ext segment) items
  end.

(** The world after [filter_items]: a line is printed when a segment
    selects nothing. *)
Definition after_filter (ext : Externals) (select : list string) (items : list item)
    (name : string) (indent : nat) (w : World) : World :=
  match select with
  | [] => w
  | segment :: _ =>
      if decide (selected ext select items = []) then
        printed (repeat_str indent "  " +:+ "No " +:+ name +:+ " found matching " +:+ segment) w
      else w
  end.


(** Two spellings that differ in case only: they have the same
    lower-casing. *)
Definition same_case (ext : Externals) (a b : string) : Prop :=
  str_lower ext a = str_lower ext b.

(** The listing that [download_notebooks] prints (lines 176-180). *)
Definition announce (notebooks : list item) : M unit :=
  indent_print 0 ("Got " +:+ pretty (length notebooks) +:+ " notebooks:");;
  print "---------------------------------------------";;
  for_each notebooks (λ n, print (str_of (default VNone (n !! "displayName"))));;
  print "---------------------------------------------".

(** What [download_notebooks] does with the notebooks it has listed
    (lines 181-189). *)
Definition open_notebooks (ext : Externals) (remote : Remote) (fuel : nat)
    (notebooks : list item) (path : Path) (select : list string) (indent : nat) : M unit :=
  '(notebooks, select) ← filter_items ext notebooks select "notebooks" indent;
  for_each notebooks (λ nb,
    nb_name ← getitem nb "displayName";
    indent_print indent ("Opening notebook " +:+ str_of nb_name);;
    sections_url ← getitem nb "sectionsUrl";
    sections ← get_json remote fuel sections_url;
    groups_url ← getitem nb "sectionGroupsUrl";
    section_groups ← get_json remote fuel groups_url;
    indent_print (indent + 1)
      ("Got " +:+ pretty (length sections) +:+ " sections and "
       +:+ pretty (length section_groups) +:+ " section groups.");;
    dir ← add_str nb_name ".SECTIONS";
    download_sections ext remote fuel sections (path </> dir) select (indent + 1);;
    dir ← add_str nb_name ".SECTIONS";
    download_section_groups ext remote fuel section_groups (path </> dir) select
      (indent + 1)).

(** ** Statements about the attachment resolver *)

(** The two kinds of embedded reference: an [<img>] and an [<object>]. *)
Inductive reference :=
  | Image
  | Object.

(** The callback the resolver runs on a tag of each kind. *)
Definition resolve (ext : Externals) (remote : Remote) (fuel : nat) (out_dir : Path)
    (page_title : string) (indent : nat) (kind : reference) : string → M string :=
  match kind with
  | Image => download_image ext remote fuel out_dir page_title indent
  | Object => download_attachment ext remote fuel out_dir page_title indent
  end.

(** What the resolver derives from a tag before it looks at the disk: the
    URL of the binary, the local file name, and the tag rewritten to point
    at the local file (a [TypeError] when an attribute that stays in the
    tag has no value). *)
Record derived := {
  source_url : string;
  file_name : string;
  local_tag : exn + string;
}.

(** The attributes the resolver reads are there and have a value. *)
Definition derive (ext : Externals) (page_title : string) (kind : reference) (tag : string)
    : option derived :=
  attrs ← tag_attrs ext tag;
  let p := props_of attrs in
  match kind with
  | Image =>
      src ← props_get p "src";
      src_type ← props_get p "data-src-type";
      type ← default src_type (props_get p "data-fullres-src-type");
      url ← default src (props_get p "data-fullres-src");
      let name := image_stem ext url +:+ "." +:+ last_field type in
      Some {| source_url := url; file_name := name;
              local_tag :=
                generate_html ext "img"
                  (List.filter (λ kv, negb (contains "data-fullres-src" kv.1))
                     (props_set p "src" (Some (dir_name page_title +:+ "/" +:+ name)))) |}
  | Object =>
      url ← mjoin (props_get p "data");
      name ← mjoin (props_get p "data-attachment");
      Some {| source_url := url; file_name := name;
              local_tag :=
                generate_html ext "object"
                  (props_set p "data" (Some (dir_name page_title +:+ "/" +:+ name))) |}
  end.

(** The text [opening] occurs somewhere in [s]. *)
Fixpoint occurs (opening s : string) : bool :=
  match s with
  | EmptyString => false
  | String _ s' =>
      match strip_prefix opening s with
      | Some _ => true
      | None => occurs opening s'
      end
  end.









Definition other (kind : reference) : reference :=
  match kind with
  | Image => Object
  | Object => Image
  end.


(** Where the binary of a reference is kept. *)
Definition local_file (out_dir : Path) (page_title : string) (d : derived) : Path :=
  attachment_dir out_dir page_title </> file_name d.

(** ** Statements about running the export again *)

(** A remote that does not change between requests. *)
Definition stable (remote : Remote) : Prop := ∀ t t' url, remote t url = remote t' url.

Definition same_kind (a b : node) : Prop :=
  match a, b with
  | Dir, Dir => True
  | File _, File _ => True
  | _, _ => False
  end.

(** The tree [t'] has whatever the tree [t] has, a directory where [t] has
    a directory and a file where [t] has a file. *)
Definition keeps (t t' : tree) : Prop :=
  ∀ p n, t !! p = Some n → ∃ n', t' !! p = Some n' ∧ same_kind n n'.

(** A response that is a list: a success whose body carries the items
    field. *)
Definition lists (r : response) : Prop :=
  is_success r = true ∧ ∃ body batch, json r = Some body ∧ value body = Some batch.

(** A request that downloads nothing: it is answered with a list, or the
    resource is unavailable. *)
Definition downloads_nothing (remote : Remote) (url : string) : Prop :=
  lists (remote O url) ∨ is_unavailable (status_code (remote O url)) = true.

(** A call that only ever adds to the tree. *)
Definition extends {A} (c : M A) : Prop :=
  ∀ w a w', c w = Ok a w' → keeps (fs w) (fs w').

(** A call that, made again once it has returned, returns the same value,
    leaves the tree as it finds it, and downloads nothing. *)
Definition idles (remote : Remote) {A} (c : M A) : Prop :=
  ∀ w a w', c w = Ok a w' →
  ∀ w2, keeps (fs w') (fs w2) →
  ∃ q w2', c w2 = Ok a w2'
           ∧ fs w2' = fs w2
           ∧ requests w2' = requests w2 ++ q
           ∧ Forall (downloads_nothing remote) q.

Definition settles (remote : Remote) {A} (c : M A) : Prop :=
  extends c ∧ idles remote c.

(** ** A small remote and stand-ins for the libraries, to run the crawler on *)

Module Demo.

(** [fnmatch] on patterns made of literal characters, [*] and [?]. *)
Fixpoint glob (pattern s : string) : bool :=
  match pattern with
  | EmptyString => String.eqb s ""
  | String p pattern' =>
      if Ascii.eqb p "*" then
        (fix star (s : string) : bool :=
           glob pattern' s ||
           match s with
           | EmptyString => false
           | String _ s' => star s'
           end) s
      else
        match s with
        | EmptyString => false
        | String c s' => (Ascii.eqb p "?" || Ascii.eqb p c) && glob pattern' s'
        end
  end.

(** [str.lower] as it is on ASCII text. *)
Definition lower_ascii (c : ascii) : ascii :=
  let n := nat_of_ascii c in
  if (Nat.leb 65 n && Nat.leb n 90) then ascii_of_nat (n + 32) else c.

Fixpoint lower (s : string) : string :=
  match s with
  | EmptyString => EmptyString
  | String c s' => String (lower_ascii c) (lower s')
  end.

(** The characters no platform takes in a file name:
    backslash, slash, colon, star, question mark, double quote, angle
    brackets and bar. *)
Definition forbidden (c : ascii) : bool :=
  bool_decide (nat_of_ascii c ∈ [92; 47; 58; 42; 63; 34; 60; 62; 124]%nat).

Definition separator (c : ascii) : bool :=
  bool_decide (nat_of_ascii c ∈ [92; 47]%nat).

Fixpoint strip (bad : ascii → bool) (s : string) : string :=
  match s with
  | EmptyString => EmptyString
  | String c s' => if bad c then strip bad s' else String c (strip bad s')
  end.

(** A reader for one tag whose attribute values, where there are any, are
    quoted. *)
Inductive reading :=
  | InName
  | Between
  | InKey (k : string)
  | AtValue (k : string)
  | InValue (k : string) (quote : ascii) (v : string).

Definition is_quote (c : ascii) : bool :=
  bool_decide (nat_of_ascii c ∈ [34; 39]%nat).

Fixpoint read_attrs (m : reading) (s : string) (acc : list (string * option string))
    : list (string * option string) :=
  match s with
  | EmptyString => acc
  | String c s' =>
      match m with
      | InName =>
          if Ascii.eqb c " " then read_attrs Between s' acc else read_attrs InName s' acc
      | Between =>
          if Ascii.eqb c " " then read_attrs Between s' acc
          else if Ascii.eqb c "/" || Ascii.eqb c ">" then acc
          else read_attrs (InKey (String c "")) s' acc
      | InKey k =>
          if Ascii.eqb c "=" then read_attrs (AtValue k) s' acc
          else if Ascii.eqb c " " then read_attrs Between s' (acc ++ [(k, None)])
          else if Ascii.eqb c "/" || Ascii.eqb c ">" then acc ++ [(k, None)]
          else read_attrs (InKey (k +:+ String c "")) s' acc
      | AtValue k =>
          if is_quote c then read_attrs (InValue k c "") s' acc else acc
      | InValue k q v =>
          if Ascii.eqb c q then read_attrs Between s' (acc ++ [(k, Some v)])
          else read_attrs (InValue k q (v +:+ String c "")) s' acc
      end
  end.

Definition dq : string := String (ascii_of_nat 34) "".

Definition attr_text (kv : string * string) : string :=
  " " +:+ kv.1 +:+ "=" +:+ dq +:+ kv.2 +:+ dq.

Definition ext : Externals := {|
  fnmatch name pattern := glob pattern name;
  str_lower := lower;
  sanitize_filename := strip forbidden;
  sanitize_filepath := strip (λ c, forbidden c && negb (separator c));
  tag_attrs tag := if String.prefix "<" tag then Some (read_attrs InName tag []) else None;
  tostring tag a := "<" +:+ tag +:+ String.concat "" (attr_text <$> a) +:+ " />";
  image_stem url := url;
  restyle content title := inr content;
|}.

(** A remote that does not change: a table from URLs to responses, 404
    for the rest. *)
Definition not_found : response := {| status_code := 404; text := ""; json := None |}.

Fixpoint lookup_url (table : list (string * response)) (url : string) : response :=
  match table with
  | [] => not_found
  | (u, r) :: table' => if String.eqb u url then r else lookup_url table' url
  end.

Definition serve (table : list (string * response)) : Remote := λ _ url, lookup_url table url.

Definition listing_of (items : list item) (next : option string) : response :=
  {| status_code := 200; text := "";
     json := Some {| value := Some items; odata_nextLink := VStr <$> next |} |}.

Definition body_of (content : string) : response :=
  {| status_code := 200; text := content; json := None |}.

Definition status_only (s : Z) : response :=
  {| status_code := s; text := ""; json := None |}.

Definition dict (fields : list (string * val)) : item := list_to_map fields.

Definition notebook (name : string) : item :=
  dict [("displayName", VStr name);
        ("sectionsUrl", VStr ("nb/" +:+ name +:+ "/sections"));
        ("sectionGroupsUrl", VStr ("nb/" +:+ name +:+ "/groups"))].

Definition section (name : string) : item :=
  dict [("displayName", VStr name); ("pagesUrl", VStr ("sec/" +:+ name +:+ "/pages"))].

Definition page (order level : Z) (title : string) : item :=
  dict [("title", VStr title); ("order", VInt order); ("level", VInt level);
        ("contentUrl", VStr ("page/" +:+ title))].

Definition start : World := {| fs := ∅; requests := []; slept := []; stdout := [] |}.

(** The files of a tree, as path strings. *)
Definition files (t : tree) : list string :=
  omap (λ kv, match kv.2 with File _ => Some (path_str kv.1) | Dir => None end)
       (map_to_list t).

Definition world_of {A} (r : result A) : World :=
  match r with
  | Ok _ w => w
  | Raise _ w => w
  | Timeout => start
  end.

(** *** The outline of three pages *)

Definition outline_pages : list item :=
  [page 1 0 "Root"; page 2 1 "Child"; page 3 2 "Grand"].

Definition outline_remote : Remote :=
  serve [("page/Root", body_of "<html>r</html>");
         ("page/Child", body_of "<html>c</html>");
         ("page/Grand", body_of "<html>g</html>")].

End Demo.

Module Pagination.

Definition batch (from : Z) : list item :=
  (λ i, Demo.dict [("id", VInt i)]) <$> seqZ from 10.

(** Three list responses of ten items each; the last has no continuation
    link. *)
Definition three_pages : Remote :=
  Demo.serve [("items", Demo.listing_of (batch 0) (Some "items?skip=10"));
              ("items?skip=10", Demo.listing_of (batch 10) (Some "items?skip=20"));
              ("items?skip=20", Demo.listing_of (batch 20) None)].

Definition three_urls : list string := ["items"; "items?skip=10"; "items?skip=20"].

End Pagination.

Module Selection.

(** Two notebooks, each with one section of one page. *)
Definition remote : Remote :=
  Demo.serve
    [(notebooks_url, Demo.listing_of [Demo.notebook "Work"; Demo.notebook "Personal"] None);
     ("nb/Work/sections", Demo.listing_of [Demo.section "Plans"] None);
     ("nb/Work/groups", Demo.listing_of [] None);
     ("nb/Personal/sections", Demo.listing_of [Demo.section "Diary"] None);
     ("nb/Personal/groups", Demo.listing_of [] None);
     ("sec/Plans/pages?pagelevel=true", Demo.listing_of [Demo.page 1 0 "Monday"] None);
     ("sec/Diary/pages?pagelevel=true", Demo.listing_of [Demo.page 1 0 "Today"] None);
     ("page/Monday", Demo.body_of "<html>m</html>");
     ("page/Today", Demo.body_of "<html>t</html>")].

(** The world after a first export of everything. *)
Definition first_run : World :=
  Demo.world_of (download_notebooks Demo.ext remote 2 ["out"] [] 0 Demo.start).

End Selection.

Module Throttling.

(** A remote that answers the first two requests with 429. *)
Definition twice : Remote := λ t url,
  if Nat.ltb t 2 then Demo.status_only 429 else Demo.body_of "<html>late</html>".

End Throttling.

Module Attachments.

Definition pdf_tag : string := "<object data-attachment='sheet.pdf' data='att/1' />".
Definition pdf_again : string := "<object data='att/2' data-attachment='sheet.pdf' />".
Definition img_tag : string := "<img src='img7' data-src-type='image/png' />".

(** A page directory that exists, and nothing in it. *)
Definition empty_dir : World :=
  {| fs := {[ ["out"] := Dir ]}; requests := []; slept := []; stdout := [] |}.

(** The same with the attachment already there. *)
Definition with_pdf : World :=
  {| fs := {[ ["out"] := Dir; ["out"; "Page.FILES"] := Dir;
              ["out"; "Page.FILES"; "sheet.pdf"] := File "%PDF" ]};
     requests := []; slept := []; stdout := [] |}.

Definition online : Remote :=
  Demo.serve [("att/1", Demo.body_of "%PDF"); ("att/2", Demo.body_of "%PDF");
              ("img7", Demo.body_of "PNG")].

Definition offline : Remote :=
  Demo.serve [("att/1", Demo.status_only 504); ("att/2", Demo.status_only 504);
              ("img7", Demo.status_only 500)].







End Attachments.

Module Rewritten.

(** The tags of [Attachments] once they point at the local file. *)
Definition pdf_again : string :=
  tostring Demo.ext "object"
    [("data", "Page.FILES/sheet.pdf"); ("data-attachment", "sheet.pdf")].

Definition pdf_tag : string :=
  tostring Demo.ext "object"
    [("data-attachment", "sheet.pdf"); ("data", "Page.FILES/sheet.pdf")].

Definition first : derived :=
  {| source_url := "att/1"; file_name := "sheet.pdf"; local_tag := inr pdf_tag |}.






End Rewritten.

Module Unsanitized.

(** A notebook, a section and a page whose names have characters that the
    sanitizers remove. *)
Definition remote : Remote :=
  Demo.serve
    [(notebooks_url, Demo.listing_of [Demo.notebook "Work/2024: Q1"] None);
     ("nb/Work/2024: Q1/sections", Demo.listing_of [Demo.section "Pl:ans"] None);
     ("nb/Work/2024: Q1/groups", Demo.listing_of [] None);
     ("sec/Pl:ans/pages?pagelevel=true", Demo.listing_of [Demo.page 1 0 "Mon:day"] None);
     ("page/Mon:day", Demo.body_of "<html>m</html>")].

(** A notebook whose name starts with a slash. *)
Definition rooted : Remote :=
  Demo.serve
    [(notebooks_url, Demo.listing_of [Demo.notebook "/srv/www"] None);
     ("nb//srv/www/sections", Demo.listing_of [Demo.section "Plans"] None);
     ("nb//srv/www/groups", Demo.listing_of [] None);
     ("sec/Plans/pages?pagelevel=true", Demo.listing_of [Demo.page 1 0 "Monday"] None);
     ("page/Monday", Demo.body_of "<html>m</html>")].

End Unsanitized.

Module Failing.

(** One notebook with one section of two pages: the first page is
    answered with a 504, or else with a 403. *)
Definition remote (first_page : Z) : Remote :=
  Demo.serve
    [(notebooks_url, Demo.listing_of [Demo.notebook "Work"] None);
     ("nb/Work/sections", Demo.listing_of [Demo.section "Plans"] None);
     ("nb/Work/groups", Demo.listing_of [] None);
     ("sec/Plans/pages?pagelevel=true",
      Demo.listing_of [Demo.page 1 0 "Monday"; Demo.page 2 0 "Tuesday"] None);
     ("page/Monday", Demo.status_only first_page);
     ("page/Tuesday", Demo.body_of "<html>t</html>")].

End Failing.

(** ** The entry points (lines 305-328) *)

(** [app.config]: what [main_command] leaves for [main_logic]. *)
Record config := {
  select_path : list string;
  output_path : Path;
}.

(** [main_command(select, outdir)] (lines 325-328), up to [app.run()]:
    [[x for x in select.split('/') if x]] and [Path(outdir)]. *)
Definition main_command (select outdir : string) : config :=
  {| select_path := List.filter (λ x, negb (String.eqb x "")) (split_slash select);
     output_path := parse_path outdir |}.

(** [main_logic()] (lines 306-316) once the client holds its token: the
    export, then the line [Done!]. *)
Definition main_logic (ext : Externals) (remote : Remote) (fuel : nat) (c : config) : M unit :=
  download_notebooks ext remote fuel (output_path c) (select_path c) 0;;
  print "Done!".

(** ** Statements about the rest of the crawler *)

(** The string has a slash. *)
Fixpoint has_slash (s : string) : bool :=
  match s with
  | EmptyString => false
  | String c s' => Ascii.eqb c "/" || has_slash s'
  end.

(** A call after which the tree has whatever it had before, whether the
    call returns or raises. *)
Definition survives {A} (c : M A) : Prop :=
  ∀ w, match c w with
       | Ok _ w' | Raise _ w' => keeps (fs w) (fs w')
       | Timeout => True
       end.

(** The world a call ends in. *)
Definition last_world {A} (r : result A) : option World :=
  match r with
  | Ok _ w | Raise _ w => Some w
  | Timeout => None
  end.

(** Every list response for a URL in [chain] is answered at once and
    points on to another URL in [chain]. *)
Definition endless (remote : Remote) (chain : string → Prop) : Prop :=
  ∀ t u, chain u →
    u ≠ ""
    ∧ is_success (remote t u) = true
    ∧ ∃ body batch next,
        json (remote t u) = Some body
        ∧ value body = Some batch
        ∧ odata_nextLink body = Some (VStr next)
        ∧ chain next.

Module Looping.

(** A list response whose continuation link is its own URL. *)
Definition remote : Remote :=
  Demo.serve [("items", Demo.listing_of [Demo.dict [("id", VInt 1)]] (Some "items"))].

(** A list request throttled twice before it is answered. *)
Definition throttled_list : Remote := λ t url,
  if Nat.ltb t 2 then Demo.status_only 429
  else Demo.listing_of [Demo.section "Plans"; Demo.section "Notes"] None.

End Looping.

(** A page record whose level is none of 0, 1 and 2. *)
Definition unplaced (page : item) : Prop :=
  (∃ o, page !! "order" = Some (VInt o))
  ∧ (∃ l, page !! "level" = Some l ∧ l ≠ VInt 0 ∧ l ≠ VInt 1 ∧ l ≠ VInt 2)
  ∧ is_Some (page !! "title")
  ∧ is_Some (page !! "contentUrl").

(** Materialize one page in [dir], as the loop of [download_pages] does. *)
Definition materialize_in (ext : Externals) (remote : Remote) (fuel : nat) (dir : Path)
    (indent : nat) (page : item) : M unit :=
  indent_print indent ("Opening page: " +:+ page_stem ext page +:+ ".html");;
  download_page ext remote fuel (page_field page "contentUrl") dir (page_stem ext page)
    (indent + 1).

Module Orphans.

(** A section whose pages are all of level 1. *)
Definition pages : list item := [Demo.page 2 1 "Second"; Demo.page 1 1 "First"].

(** A section whose pages have a level the walker does not know. *)
Definition deep : list item := [Demo.page 1 3 "Deep"; Demo.page 2 4 "Deeper"].

(** A page record without [order]. *)
Definition unordered : item :=
  Demo.dict [("title", VStr "Loose"); ("level", VInt 0); ("contentUrl", VStr "page/Loose")].

(** An item with neither [displayName] nor [title]. *)
Definition nameless : item := Demo.dict [("id", VStr "0-1")].

End Orphans.

Module Tags.

(** An image tag with a full-resolution source and no [src]. *)
Definition no_src : string :=
  "<img data-fullres-src='img9' data-src-type='image/png' data-fullres-src-type='image/png' />".

(** An image tag with both sources. *)
Definition both : string :=
  "<img width='8' src='img7' data-src-type='image/png' data-fullres-src='img9' data-fullres-src-type='image/jpeg' />".

Definition both_derived : derived :=
  {| source_url := "img9"; file_name := "img9.jpeg";
     local_tag :=
       generate_html Demo.ext "img"
         [("width", Some "8"); ("src", Some "Page.FILES/img9.jpeg");
          ("data-src-type", Some "image/png")] |}.

(** An image tag with an attribute that has no value. *)
Definition hidden : string := "<img hidden src='img7' data-src-type='image/png' />".

Definition hidden_derived : derived :=
  {| source_url := "img7"; file_name := "img7.png"; local_tag := inl TypeError |}.

(** A page directory with the image of [hidden] already there. *)
Definition with_hidden : World :=
  {| fs := {[ ["out"] := Dir; ["out"; "Page.FILES"] := Dir;
              ["out"; "Page.FILES"; "img7.png"] := File "PNG" ]};
     requests := []; slept := []; stdout := [] |}.

(** A page directory with the full-resolution image already there. *)
Definition with_image : World :=
  {| fs := {[ ["out"] := Dir; ["out"; "Page.FILES"] := Dir;
              ["out"; "Page.FILES"; "img9.jpeg"] := File "JPEG" ]};
     requests := []; slept := []; stdout := [] |}.

End Tags.

Module Nested.

(** A section group that has a section and, in the remote, a group of its
    own. *)
Definition group : item :=
  Demo.dict [("displayName", VStr "Archive"); ("sectionsUrl", VStr "sg/Archive/sections")].

Definition remote : Remote :=
  Demo.serve
    [("sg/Archive/sections", Demo.listing_of [Demo.section "Old"] None);
     ("sg/Archive/groups", Demo.listing_of [group] None);
     ("sec/Old/pages?pagelevel=true", Demo.listing_of [Demo.page 1 0 "Page"] None);
     ("page/Page", Demo.body_of "<html>p</html>")].

End Nested.
(** ** Reasoning about the monad *)

Lemma bind_ok {A B} (m : M A) (f : A → M B) w a w' :
  m w = Ok a w' → (m ≫= f) w = f a w'.
Proof. intros H. unfold mbind, M_bind. by rewrite H. Qed.

Lemma bind_raise {A B} (m : M A) (f : A → M B) w e w' :
  m w = Raise e w' → (m ≫= f) w = Raise e w'.
Proof. intros H. unfold mbind, M_bind. by rewrite H. Qed.

Lemma bind_timeout {A B} (m : M A) (f : A → M B) w :
  m w = Timeout → (m ≫= f) w = Timeout.
Proof. intros H. unfold mbind, M_bind. by rewrite H. Qed.

Lemma bind_inv {A B} (m : M A) (f : A → M B) w b w2 :
  (m ≫= f) w = Ok b w2 → ∃ a w1, m w = Ok a w1 ∧ f a w1 = Ok b w2.
Proof.
  unfold mbind, M_bind. destruct (m w) as [a w1| |]; [|done..].
  intros H. by exists a, w1.
Qed.

Lemma world_eta w :
  {| fs := fs w; requests := requests w; slept := slept w; stdout := stdout w |} = w.
Proof. by destruct w. Qed.

Lemma throttled_0 url indent w : throttled 0 url indent w = w.
Proof.
  unfold throttled. simpl. rewrite !app_nil_r. apply world_eta.
Qed.

Lemma throttled_S k url indent w :
  throttled (S k) url indent w =
  throttled k url indent
    {| fs := fs w; requests := requests w ++ [url]; slept := slept w ++ [300%Z];
       stdout := stdout w ++ [repeat_str indent "  "
          +:+ "Too many requests, waiting 300s and trying again."] |}.
Proof.
  unfold throttled. simpl. by rewrite <- !app_assoc.
Qed.

Section FetchClient.

Variable ext : Externals.
Variable remote : Remote.

Lemma get_loop_throttled k n url indent w :
  (∀ i, (i < k)%nat → status_code (remote (length (requests w) + i) url) = 429%Z) →
  get_loop remote (k + n) url indent w = get_loop remote n url indent (throttled k url indent w).
Proof.
  revert w. induction k as [|k IH]; intros w H.
  - by rewrite throttled_0.
  - rewrite throttled_S. simpl.
    unfold mbind at 1, M_bind, client_get.
    pose proof (H O ltac:(lia)) as H0. rewrite Nat.add_0_r in H0. rewrite H0. simpl.
    rewrite <- IH; [done|].
    intros i Hi. simpl. rewrite length_app. simpl.
    replace (length (requests w) + 1 + i)%nat with (length (requests w) + S i)%nat by lia.
    apply H. lia.
Qed.

Lemma get_loop_answer n url indent w :
  status_code (remote (length (requests w)) url) ≠ 429%Z →
  get_loop remote (S n) url indent w =
  answer_outcome indent (remote (length (requests w)) url) (requested url w).
Proof.
  intros H. simpl. unfold mbind at 1, M_bind, client_get, answer_outcome.
  fold (requested url w).
  set (r := remote _ _) in *.
  unfold is_unavailable, is_error_status, unavailable_line, raise_for_status.
  destruct (Z.eqb_spec (status_code r) 429); [done|].
  destruct (Z.eqb_spec (status_code r) 500) as [E|]; [done|].
  destruct (Z.eqb_spec (status_code r) 504) as [E|]; [done|].
  simpl. unfold mbind, M_bind.
  by destruct (_ && _).
Qed.

Lemma get_loop_starved k n url indent w :
  (∀ i, (i < k)%nat → status_code (remote (length (requests w) + i) url) = 429%Z) →
  (n ≤ k)%nat →
  get_loop remote n url indent w = Timeout.
Proof.
  revert k w. induction n as [|n IH]; intros k w H Hn; [done|].
  destruct k as [|k]; [lia|].
  simpl. unfold mbind at 1, M_bind, client_get.
  pose proof (H O ltac:(lia)) as H0. rewrite Nat.add_0_r in H0. rewrite H0. simpl.
  apply (IH k); [|lia].
  intros i Hi. simpl. rewrite length_app. simpl.
  replace (length (requests w) + 1 + i)%nat with (length (requests w) + S i)%nat by lia.
  apply H. lia.
Qed.

End FetchClient.

(** C6. The fetch client retries on a 429 and on nothing else: when the
    remote answers the first [k] attempts at a URL with 429 and the next one
    with another status, [get] has by then issued [k + 1] requests, all for
    that URL, and slept [k] times, 300 seconds each time, whatever [k] is; it
    ends on the first answer that is not a 429, with [None] for a 500 or a
    504, with an [HTTPError] for every other error status, and with the
    response otherwise; and it does not end before that answer. *)
Theorem get_retries_on_429_only (remote : Remote) (fuel : nat) (url : string)
    (indent : nat) (w : World) (k : nat) :
  (∀ i, (i < k)%nat → status_code (remote (length (requests w) + i) url) = 429%Z) →
  status_code (remote (length (requests w) + k) url) ≠ 429%Z →
  (k < fuel)%nat →
  let resp := remote (length (requests w) + k) url in
  let w' := requested url (throttled k url indent w) in
  get remote fuel (VStr url) indent w = answer_outcome indent resp w'
  ∧ requests w' = requests w ++ replicate (S k) url
  ∧ slept w' = slept w ++ replicate k 300%Z
  ∧ fs w' = fs w
  ∧ ∀ n, (n ≤ k)%nat → get remote n (VStr url) indent w = Timeout.
Proof.
  intros H429 Hk Hfuel resp w'.
  split; [|split; [|split; [|split]]].
  - unfold get. replace fuel with (k + S (fuel - S k))%nat by lia.
    rewrite get_loop_throttled by done.
    rewrite get_loop_answer.
    + subst resp w'. simpl. by rewrite length_app, length_replicate.
    + simpl. by rewrite length_app, length_replicate.
  - subst w'. simpl. rewrite <- app_assoc. f_equal.
    clear. induction k; [done|]. simpl. by f_equal.
  - done.
  - done.
  - intros n Hn. by eapply get_loop_starved.
Qed.

Lemma get_retries_on_429_only_witness :
  get Throttling.twice 3 (VStr "page/1") 0 Demo.start
  = Ok (Some (Demo.body_of "<html>late</html>"))
       (requested "page/1" (throttled 2 "page/1" 0 Demo.start))
  ∧ requests (requested "page/1" (throttled 2 "page/1" 0 Demo.start))
    = ["page/1"; "page/1"; "page/1"]
  ∧ slept (requested "page/1" (throttled 2 "page/1" 0 Demo.start)) = [300%Z; 300%Z]
  ∧ get Throttling.twice 2 (VStr "page/1") 0 Demo.start = Timeout.
Proof.
  destruct (get_retries_on_429_only Throttling.twice 3 "page/1" 0 Demo.start 2)
    as (H1 & H2 & H3 & _ & H5).
  - intros i Hi. destruct i as [|[|i]]; [reflexivity|reflexivity|lia].
  - discriminate.
  - lia.
  - split; [exact H1|]. split; [exact H2|]. split; [exact H3|]. apply H5. lia.
Defined.

(** ** The pagination reader *)

Lemma string_eqb_empty s : s ≠ "" → String.eqb s "" = false.
Proof. intros H. by apply String.eqb_neq. Qed.

Lemma get_success remote fuel url indent w :
  (0 < fuel)%nat →
  is_success (remote (length (requests w)) url) = true →
  get remote fuel (VStr url) indent w
  = Ok (Some (remote (length (requests w)) url)) (requested url w).
Proof.
  intros Hf Hs. unfold get. destruct fuel as [|n]; [lia|].
  unfold is_success in Hs. apply andb_prop in Hs as [Hs He]. apply andb_prop in Hs as [H429 Hu].
  rewrite get_loop_answer.
  - unfold answer_outcome.
    apply negb_true_iff in Hu, He. by rewrite Hu, He.
  - intros E. rewrite E in H429. done.
Qed.

Lemma get_unavailable remote fuel url indent w :
  (0 < fuel)%nat →
  is_unavailable (status_code (remote (length (requests w)) url)) = true →
  get remote fuel (VStr url) indent w
  = Ok None (printed (unavailable_line indent (status_code (remote (length (requests w)) url)))
                     (requested url w)).
Proof.
  intros Hf Hu. unfold get. destruct fuel as [|n]; [lia|].
  rewrite get_loop_answer.
  - unfold answer_outcome. by rewrite Hu.
  - intros E. rewrite E in Hu. done.
Qed.

Lemma fetched_nil w : fetched [] w = w.
Proof. unfold fetched. rewrite app_nil_r. apply world_eta. Qed.

Lemma fetched_cons url urls w : fetched (url :: urls) w = fetched urls (requested url w).
Proof. unfold fetched, requested. simpl. by rewrite <- app_assoc. Qed.

Lemma get_json_loop_paginates remote fuel n link urls res values w :
  paginates remote (length (requests w)) link urls res →
  (length urls ≤ n)%nat →
  (0 < fuel)%nat →
  get_json_loop remote fuel n link values w
  = ends_with (prepend values res) (fetched urls w).
Proof.
  intros Hp. remember (length (requests w)) as t eqn:Ht.
  revert n values w Ht.
  induction Hp as [t link Hl | t url body Hu Hs Hj Hv
                  | t url body batch urls rest Hu Hs Hj Hv Hp IH];
    intros n values w Ht Hn Hf; subst t.
  - destruct n; simpl; rewrite Hl, fetched_nil, app_nil_r; done.
  - destruct n as [|n]; [simpl in Hn; lia|].
    simpl. rewrite (string_eqb_empty _ Hu). simpl.
    erewrite bind_ok by (by apply get_success).
    cbv beta iota. by rewrite Hj, Hv.
  - destruct n as [|n]; [simpl in Hn; lia|].
    simpl. rewrite (string_eqb_empty _ Hu). simpl.
    erewrite bind_ok by (by apply get_success).
    cbv beta iota. rewrite Hj, Hv, fetched_cons.
    rewrite IH.
    + destruct rest; simpl; [done|]. by rewrite app_assoc.
    + unfold requested. simpl. rewrite length_app. simpl. lia.
    + simpl in Hn. lia.
    + done.
Qed.

(** C5. The pagination reader fetches the list URL and then each
    continuation link in turn, raises as soon as a body lacks the items
    field, stops at the first body without a continuation link, and returns
    the batches concatenated in the order they arrived, having issued one
    request per response of the chain. *)
Theorem get_json_paginates (remote : Remote) (fuel : nat) (url : val)
    (urls : list string) (res : exn + list item) (w : World) :
  paginates remote (length (requests w)) url urls res →
  (0 < fuel)%nat →
  (length urls ≤ fuel)%nat →
  get_json remote fuel url w = ends_with res (fetched urls w)
  ∧ requests (fetched urls w) = requests w ++ urls
  ∧ fs (fetched urls w) = fs w.
Proof.
  intros Hp Hf Hn. split; [|done].
  unfold get_json. rewrite (get_json_loop_paginates _ _ _ _ urls res) by done.
  by destruct res.
Qed.

(** A chain of three responses of ten items each, the last without a
    continuation link: thirty items from three fetches. *)
Lemma get_json_paginates_witness :
  let items := Pagination.batch 0 ++ Pagination.batch 10 ++ Pagination.batch 20 in
  get_json Pagination.three_pages 3 (VStr "items") Demo.start
  = Ok items (fetched Pagination.three_urls Demo.start)
  ∧ length items = 30%nat
  ∧ length (requests (fetched Pagination.three_urls Demo.start)) = 3%nat.
Proof.
  intros items.
  assert (paginates Pagination.three_pages 0 (VStr "items") Pagination.three_urls
            (prepend (Pagination.batch 0)
               (prepend (Pagination.batch 10)
                  (prepend (Pagination.batch 20) (inr []))))) as Hp.
  { eapply paginates_batch; [done|reflexivity|reflexivity|reflexivity|].
    eapply paginates_batch; [done|reflexivity|reflexivity|reflexivity|].
    eapply paginates_batch; [done|reflexivity|reflexivity|reflexivity|].
    by apply paginates_end. }
  destruct (get_json_paginates Pagination.three_pages 3 (VStr "items")
              Pagination.three_urls _ Demo.start Hp) as (Hrun & _ & _); [lia|simpl; lia|].
  split; [|split; reflexivity].
  rewrite Hrun. unfold ends_with, prepend, items. by rewrite app_nil_r.
Defined.


Lemma get_json_loop_unavailable remote fuel n url values w :
  url ≠ "" →
  (0 < fuel)%nat →
  is_unavailable (status_code (answers remote w url)) = true →
  get_json_loop remote fuel (S n) (VStr url) values w
  = Raise AttributeError
      (printed (unavailable_line 0 (status_code (answers remote w url))) (requested url w)).
Proof.
  intros Hu Hf Hs.
  simpl. rewrite (string_eqb_empty _ Hu). simpl.
  erewrite bind_ok by (by apply get_unavailable).
  done.
Qed.

Lemma get_json_unavailable remote fuel url w :
  url ≠ "" →
  (0 < fuel)%nat →
  is_unavailable (status_code (answers remote w url)) = true →
  get_json remote fuel (VStr url) w
  = Raise AttributeError
      (printed (unavailable_line 0 (status_code (answers remote w url))) (requested url w)).
Proof.
  intros Hu Hf Hs. unfold get_json.
  destruct fuel as [|n] eqn:E; [lia|]. rewrite <- E at 1.
  apply get_json_loop_unavailable; [done|lia|done].
Qed.

(** C1 (the code departs from it). A 500 or a 504 in answer to a list
    request does not leave the traversal running: [get] returns [None],
    [get_json] calls [.json()] on it, and the [AttributeError] ends the run;
    here for the first request of all, the list of notebooks. *)
Theorem list_fetch_unavailable_aborts (ext : Externals) (remote : Remote) (fuel : nat)
    (path : Path) (select : list string) (indent : nat) (w : World) :
  (0 < fuel)%nat →
  is_unavailable (status_code (answers remote w notebooks_url)) = true →
  ∃ w', download_notebooks ext remote fuel path select indent w = Raise AttributeError w'
        ∧ fs w' = fs w.
Proof.
  intros Hf Hs. eexists. split.
  - unfold download_notebooks. apply bind_raise.
    apply get_json_unavailable; done.
  - done.
Qed.

Lemma list_fetch_unavailable_aborts_witness :
  ∃ w', download_notebooks Demo.ext
          (Demo.serve [(notebooks_url, Demo.status_only 504)]) 1 ["out"] [] 0 Demo.start
        = Raise AttributeError w'
        ∧ fs w' = fs Demo.start.
Proof.
  apply (list_fetch_unavailable_aborts Demo.ext
           (Demo.serve [(notebooks_url, Demo.status_only 504)]) 1 ["out"] [] 0 Demo.start).
  - lia.
  - reflexivity.
Defined.

(** ** The sort of line 214 *)

#[local] Instance key_le_trans : Transitive key_le.
Proof. unfold key_le. intros x y z ??. lia. Qed.

Lemma tuple_lt_int x y :
  (∃ z, x.1 = VInt z) → (∃ z, y.1 = VInt z) →
  tuple_lt x y =
    if decide (x.1 = y.1) then (if decide (x.2 = y.2) then inr false else inl TypeError)
    else inr (Z.ltb (entry_key x) (entry_key y)).
Proof.
  intros [a Ha] [b Hb]. unfold tuple_lt, entry_key.
  destruct (decide (x.1 = y.1)); [done|]. by rewrite Ha, Hb.
Qed.

Lemma entry_key_inj x y :
  (∃ z, x.1 = VInt z) → (∃ z, y.1 = VInt z) → entry_key x = entry_key y → x.1 = y.1.
Proof.
  intros [a Ha] [b Hb]. unfold entry_key. rewrite Ha, Hb. simpl. by intros ->.
Qed.

(** Inserting an entry that ties with none: a sorted permutation. *)
Lemma insert_sorted_ok x l :
  (∃ z, x.1 = VInt z) → int_keyed l → StronglySorted key_le l →
  (∀ y, y ∈ l → x.1 = y.1 → x.2 = y.2) →
  ∃ r, insert_sorted x l = inr r ∧ r ≡ₚ x :: l ∧ StronglySorted key_le r.
Proof.
  intros Hx Hl Hs Hfree. induction l as [|y l IH].
  - exists [x]. repeat split; [done|]. repeat constructor.
  - apply Forall_cons in Hl as [Hy Hl]. apply StronglySorted_inv in Hs as [Hs Hall].
    simpl. rewrite tuple_lt_int by done.
    destruct (decide (x.1 = y.1)) as [E|NE].
    + rewrite decide_True by (apply Hfree; [left|done]).
      destruct IH as (r & -> & Hp & Hr); [done..| |].
      { intros z Hz. apply Hfree. by right. }
      exists (y :: r). split; [done|]. split.
      * rewrite Hp. apply Permutation_swap.
      * constructor; [done|]. rewrite Hp. constructor; [|done].
        unfold key_le, entry_key. rewrite E. lia.
    + destruct (Z.ltb_spec (entry_key x) (entry_key y)) as [Hlt|Hge].
      * exists (x :: y :: l). repeat split; [done|].
        constructor; [by constructor|].
        constructor; [unfold key_le; lia|].
        eapply Forall_impl; [exact Hall|]. intros z Hz. unfold key_le in *. lia.
      * destruct IH as (r & -> & Hp & Hr); [done..| |].
        { intros z Hz. apply Hfree. by right. }
        exists (y :: r). split; [done|]. split.
        -- rewrite Hp. apply Permutation_swap.
        -- constructor; [done|]. rewrite Hp. constructor; [|done].
           unfold key_le. lia.
Qed.

(** Inserting an entry succeeds only if it ties with none, and fails with
    a [TypeError] only. *)
Lemma insert_sorted_inr x l r :
  (∃ z, x.1 = VInt z) → int_keyed l → StronglySorted key_le l →
  insert_sorted x l = inr r →
  ∀ y, y ∈ l → x.1 = y.1 → x.2 = y.2.
Proof.
  intros Hx Hl Hs. revert r. induction l as [|y l IH]; intros r Hr z Hz Hk.
  - by apply elem_of_nil in Hz.
  - apply Forall_cons in Hl as [Hy Hl]. apply StronglySorted_inv in Hs as [Hs Hall].
    simpl in Hr. rewrite tuple_lt_int in Hr by done.
    destruct (decide (x.1 = y.1)) as [E|NE].
    + destruct (decide (x.2 = y.2)) as [E2|]; [|done].
      apply elem_of_cons in Hz as [->|Hz]; [done|].
      destruct (insert_sorted x l) as [|r'] eqn:Hi; [done|].
      by eapply IH.
    + apply elem_of_cons in Hz as [->|Hz]; [done|].
      destruct (Z.ltb_spec (entry_key x) (entry_key y)) as [Hlt|Hge].
      * rewrite Forall_forall in Hall. specialize (Hall z Hz).
        unfold key_le, entry_key in *. rewrite Hk in Hlt. lia.
      * destruct (insert_sorted x l) as [|r'] eqn:Hi; [done|].
        by eapply IH.
Qed.

Lemma insert_sorted_inl x l e :
  (∃ z, x.1 = VInt z) → int_keyed l → insert_sorted x l = inl e → e = TypeError.
Proof.
  intros Hx Hl. induction l as [|y l IH]; [done|].
  apply Forall_cons in Hl as [Hy Hl].
  simpl. rewrite tuple_lt_int by done.
  destruct (decide (x.1 = y.1)).
  - destruct (decide (x.2 = y.2)); [|by intros [= <-]].
    destruct (insert_sorted x l); [|done]. intros [= <-]. by apply IH.
  - destruct (Z.ltb (entry_key x) (entry_key y)); [done|].
    destruct (insert_sorted x l); [|done]. intros [= <-]. by apply IH.
Qed.

Lemma int_keyed_perm l l' : l ≡ₚ l' → int_keyed l → int_keyed l'.
Proof. intros Hp. unfold int_keyed. by rewrite Hp. Qed.

Lemma tie_free_perm l l' : l ≡ₚ l' → tie_free l → tie_free l'.
Proof.
  intros Hp H x y Hx Hy. apply H; by rewrite Hp.
Qed.

Lemma sorted_onto_ok acc l :
  int_keyed acc → int_keyed l → StronglySorted key_le acc → tie_free (acc ++ l) →
  ∃ r, sorted_onto acc l = inr r ∧ r ≡ₚ acc ++ l ∧ StronglySorted key_le r.
Proof.
  revert acc. induction l as [|x l IH]; intros acc Ha Hl Hs Hfree.
  - exists acc. by rewrite app_nil_r.
  - apply Forall_cons in Hl as [Hx Hl]. simpl.
    destruct (insert_sorted_ok x acc) as (acc' & -> & Hp & Hs'); [done..| |].
    { intros y Hy. apply Hfree; apply elem_of_app; [right; left|by left]. }
    destruct (IH acc') as (r & Hr & Hpr & Hsr); [| done | done | |].
    + eapply int_keyed_perm; [symmetry; exact Hp|]. by constructor.
    + eapply tie_free_perm; [|exact Hfree]. rewrite Hp. simpl.
      symmetry. apply Permutation_middle.
    + exists r. split; [done|]. split; [|done].
      rewrite Hpr, Hp. simpl. apply Permutation_middle.
Qed.

Lemma sorted_onto_inr acc l r :
  int_keyed acc → int_keyed l → StronglySorted key_le acc → tie_free acc →
  sorted_onto acc l = inr r → tie_free (acc ++ l).
Proof.
  revert acc. induction l as [|x l IH]; intros acc Ha Hl Hs Hfree Hr.
  - by rewrite app_nil_r.
  - apply Forall_cons in Hl as [Hx Hl]. simpl in Hr.
    destruct (insert_sorted x acc) as [|acc'] eqn:Hi; [done|].
    pose proof (insert_sorted_inr _ _ _ Hx Ha Hs Hi) as Hnew.
    destruct (insert_sorted_ok x acc) as (acc2 & Hi2 & Hp & Hs'); [done..|].
    rewrite Hi in Hi2. injection Hi2 as <-.
    eapply tie_free_perm; [|apply (IH acc')]; [| | done | done | | done].
    + rewrite Hp. simpl. apply Permutation_middle.
    + eapply int_keyed_perm; [symmetry; exact Hp|]. by constructor.
    + eapply tie_free_perm; [symmetry; exact Hp|].
      intros a b Ha' Hb'. apply elem_of_cons in Ha' as [->|Ha'];
        apply elem_of_cons in Hb' as [->|Hb']; [done| by apply Hnew | | by apply Hfree].
      intros E. symmetry. by apply Hnew.
Qed.

Lemma sorted_onto_inl acc l e :
  int_keyed acc → int_keyed l → StronglySorted key_le acc → tie_free acc →
  sorted_onto acc l = inl e → e = TypeError.
Proof.
  revert acc. induction l as [|x l IH]; intros acc Ha Hl Hs Hfree; [by simpl|].
  apply Forall_cons in Hl as [Hx Hl]. simpl.
  destruct (insert_sorted x acc) as [e'|acc'] eqn:Hi.
  - intros [= <-]. eapply insert_sorted_inl; [exact Hx|exact Ha|exact Hi].
  - pose proof (insert_sorted_inr _ _ _ Hx Ha Hs Hi) as Hnew.
    destruct (insert_sorted_ok x acc) as (acc2 & Hi2 & Hp & Hs'); [done..|].
    rewrite Hi in Hi2. injection Hi2 as <-.
    apply IH; [|done|done|].
    + eapply int_keyed_perm; [symmetry; exact Hp|]. by constructor.
    + eapply tie_free_perm; [symmetry; exact Hp|].
      intros a b Ha' Hb'. apply elem_of_cons in Ha' as [->|Ha'];
        apply elem_of_cons in Hb' as [->|Hb']; [done| by apply Hnew | | by apply Hfree].
      intros E. symmetry. by apply Hnew.
Qed.

(** The sort raises exactly when two entries tie on the key with unequal
    pages, and then a [TypeError]. *)
Lemma sorted_tie l x y :
  int_keyed l → x ∈ l → y ∈ l → x.1 = y.1 → x.2 ≠ y.2 → sorted l = inl TypeError.
Proof.
  intros Hl Hx Hy Hk Hne. unfold sorted.
  destruct (sorted_onto [] l) as [e|r] eqn:Hr.
  - f_equal. eapply (sorted_onto_inl []); [constructor|done|constructor| |done].
    intros ?? []%elem_of_nil.
  - exfalso. apply Hne.
    eapply (sorted_onto_inr [] l r); [constructor|done|constructor| |done..].
    intros ?? []%elem_of_nil.
Qed.

Lemma sorted_tie_free l :
  int_keyed l → tie_free l →
  ∃ r, sorted l = inr r ∧ r ≡ₚ l ∧ StronglySorted key_le r.
Proof.
  intros Hl Hfree. apply (sorted_onto_ok [] l); [constructor|done|constructor|done].
Qed.

(** ** The walk over the pages of a section *)

Lemma bind_ext {A B} (m : M A) (f g : A → M B) w :
  (∀ a w', f a w' = g a w') → (m ≫= f) w = (m ≫= g) w.
Proof. intros H. unfold mbind, M_bind. destruct (m w); [apply H|done..]. Qed.

Lemma keyed_entries pages :
  Forall (λ p, ∃ o, p !! "order" = Some (VInt o)) pages →
  keyed pages = inr (entry_of <$> pages).
Proof.
  induction 1 as [|p pages [o Ho] _ IH]; [done|].
  simpl. rewrite Ho, IH. unfold entry_of, page_field. by rewrite Ho.
Qed.

Lemma entries_int_keyed pages :
  Forall (λ p, ∃ o, p !! "order" = Some (VInt o)) pages →
  int_keyed (entry_of <$> pages).
Proof.
  intros H. apply Forall_fmap. eapply Forall_impl; [exact H|].
  intros p [o Ho]. exists o. simpl. unfold page_field. by rewrite Ho.
Qed.

Lemma NoDup_fmap_eq {A B} (f : A → B) (l : list A) x y :
  NoDup (f <$> l) → x ∈ l → y ∈ l → f x = f y → x = y.
Proof.
  induction l as [|a l IH]; intros Hn Hx Hy E; [by apply elem_of_nil in Hx|].
  rewrite fmap_cons in Hn. apply NoDup_cons in Hn as [Ha Hn].
  apply elem_of_cons in Hx as [->|Hx]; apply elem_of_cons in Hy as [->|Hy].
  - done.
  - exfalso. apply Ha. rewrite E. by apply list_elem_of_fmap_2.
  - exfalso. apply Ha. rewrite <- E. by apply list_elem_of_fmap_2.
  - by apply IH.
Qed.

Lemma entries_tie_free pages :
  NoDup (page_order <$> pages) → tie_free (entry_of <$> pages).
Proof.
  intros Hn x y Hx Hy E.
  apply list_elem_of_fmap in Hx as (p & -> & Hp).
  apply list_elem_of_fmap in Hy as (q & -> & Hq).
  simpl in *. eapply NoDup_fmap_eq; [exact Hn|done|done|].
  unfold page_order. by rewrite E.
Qed.

(** A permutation of decorated pages is the decoration of its pages. *)
Lemma entries_perm r pages :
  r ≡ₚ entry_of <$> pages → r = entry_of <$> r.*2 ∧ r.*2 ≡ₚ pages.
Proof.
  intros Hp. split.
  - assert (Forall (λ x, x = entry_of x.2) r) as H.
    { rewrite Hp. apply Forall_fmap. by apply Forall_true. }
    clear Hp. induction H as [|x r Hx _ IH]; [done|].
    rewrite !fmap_cons. f_equal; [exact Hx|exact IH].
  - rewrite Hp. rewrite <- list_fmap_compose.
    clear. induction pages as [|p pages IH]; [done|]. rewrite fmap_cons. simpl. by rewrite IH.
Qed.

Lemma sorted_strict (l : list item) :
  StronglySorted key_le (entry_of <$> l) → NoDup (page_order <$> l) →
  StronglySorted (λ p q, (page_order p < page_order q)%Z) l.
Proof.
  induction l as [|p l IH]; intros Hs Hn; [constructor|].
  rewrite fmap_cons in Hs. rewrite fmap_cons in Hn.
  apply StronglySorted_inv in Hs as [Hs Hall]. apply NoDup_cons in Hn as [Hp Hn].
  constructor; [by apply IH|].
  apply Forall_forall. intros q Hq.
  rewrite Forall_fmap, Forall_forall in Hall. specialize (Hall q Hq).
  unfold key_le, entry_key, entry_of in Hall. simpl in Hall. fold (page_order p) (page_order q) in Hall.
  assert (page_order p ≠ page_order q).
  { intros E. apply Hp. rewrite E. by apply list_elem_of_fmap_2. }
  lia.
Qed.

Lemma pages_loop_outline ext remote fuel pages indent :
  Forall is_page pages →
  ∀ ld page_dir w,
    pages_loop ext remote fuel (entry_of <$> pages) ld page_dir indent w
    = outline ext remote fuel pages (ld0 ld) (ld1 ld) (ld2 ld) indent w.
Proof.
  induction 1 as [|page pages Hpage _ IH]; intros ld page_dir w; [done|].
  destruct Hpage as ((o & Ho) & (l & Hl & Hrange) & (t & Ht) & (u & Hu)).
  simpl. unfold getitem. rewrite Hl, Ht, Hu.
  unfold page_stem, page_level, page_field. rewrite Hl, Ht, Hu. simpl.
  unfold mbind at 1 2 3, M_bind at 1 2 3, mret, M_ret.
  apply bind_ext. intros [] w1.
  destruct (decide (l = 0%Z)) as [->|N0].
  { simpl. unfold mbind at 1 2, M_bind at 1 2, mret, M_ret.
    apply bind_ext. intros [] w2. by rewrite IH. }
  destruct (decide (l = 1%Z)) as [->|N1].
  { simpl. unfold mbind at 1 2, M_bind at 1 2, mret, M_ret.
    apply bind_ext. intros [] w2. by rewrite IH. }
  assert (l = 2%Z) as -> by lia.
  rewrite !decide_False by (intros [=]).
  simpl. unfold mbind at 1 2, M_bind at 1 2, mret, M_ret.
  apply bind_ext. intros [] w2. by rewrite IH.
Qed.

Lemma is_page_ordered pages :
  Forall is_page pages → Forall (λ p, ∃ o, p !! "order" = Some (VInt o)) pages.
Proof. intros H. eapply Forall_impl; [exact H|]. by intros p (? & _). Qed.

Lemma download_pages_unselected ext remote fuel pages base indent w :
  download_pages ext remote fuel pages base [] indent w
  = match keyed pages ≫= sorted with
    | inl e => Raise e w
    | inr entries =>
        pages_loop ext remote fuel entries {| ld0 := base; ld1 := ""; ld2 := "" |} None indent w
    end.
Proof.
  unfold download_pages, filter_items.
  unfold mbind at 1 2, M_bind, mret at 1, M_ret.
  by destruct (keyed pages ≫= sorted).
Qed.

(** C3 (amended). For every collection of pages with pairwise distinct
    orders and levels in 0, 1, 2, the walker sorts the whole collection by
    order ascending, in one sort, and then walks the pages in that order
    keeping the two anchors: a level-0 page is materialized in the base
    directory and makes its title plus [.NOTES] the level-1 anchor, a
    level-1 page is materialized in [base/anchor1] and sets the level-2
    anchor, a level-2 page is materialized in [base/anchor1/anchor2]. *)
Theorem pages_walked_in_order (ext : Externals) (remote : Remote) (fuel : nat)
    (pages : list item) (base : Path) (indent : nat) (w : World) :
  Forall is_page pages →
  NoDup (page_order <$> pages) →
  ∃ ordered,
    ordered ≡ₚ pages
    ∧ StronglySorted (λ p q, (page_order p < page_order q)%Z) ordered
    ∧ download_pages ext remote fuel pages base [] indent w
      = outline ext remote fuel ordered base "" "" indent w.
Proof.
  intros Hpages Hn.
  pose proof (is_page_ordered _ Hpages) as Ho.
  destruct (sorted_tie_free (entry_of <$> pages)) as (r & Hr & Hp & Hs).
  { by apply entries_int_keyed. }
  { by apply entries_tie_free. }
  destruct (entries_perm _ _ Hp) as [Er Hp2].
  remember (r.*2) as ordered eqn:E. clear E. subst r.
  exists ordered. split; [done|]. split.
  - apply sorted_strict; [done|]. by rewrite Hp2.
  - rewrite download_pages_unselected, (keyed_entries _ Ho).
    unfold mbind, exn_bind. rewrite Hr.
    apply pages_loop_outline. by rewrite Hp2.
Qed.

(** C10. Two page records of a section that differ and have the same
    order make the sort of line 214 compare the records themselves, and the
    walk raises a [TypeError] before any page is looked at. *)
Theorem equal_orders_raise (ext : Externals) (remote : Remote) (fuel : nat)
    (pages : list item) (path : Path) (indent : nat) (w : World) (p q : item) :
  Forall (λ p, ∃ o, p !! "order" = Some (VInt o)) pages →
  p ∈ pages → q ∈ pages →
  p !! "order" = q !! "order" →
  p ≠ q →
  download_pages ext remote fuel pages path [] indent w = Raise TypeError w.
Proof.
  intros Ho Hp Hq E Hne.
  rewrite download_pages_unselected, (keyed_entries _ Ho).
  unfold mbind, exn_bind.
  rewrite (sorted_tie (entry_of <$> pages) (entry_of p) (entry_of q)).
  - done.
  - by apply entries_int_keyed.
  - by apply list_elem_of_fmap_2.
  - by apply list_elem_of_fmap_2.
  - simpl. unfold page_field. by rewrite E.
  - done.
Qed.

Lemma demo_page_is_page order level title :
  (0 ≤ level ≤ 2)%Z → is_page (Demo.page order level title).
Proof.
  intros H. repeat split.
  - by exists order.
  - by exists level.
  - by eexists.
  - by eexists.
Qed.

Lemma pages_walked_in_order_witness :
  ∃ ordered,
    ordered ≡ₚ Demo.outline_pages
    ∧ StronglySorted (λ p q, (page_order p < page_order q)%Z) ordered
    ∧ download_pages Demo.ext Demo.outline_remote 5 Demo.outline_pages ["out"] [] 0 Demo.start
      = outline Demo.ext Demo.outline_remote 5 ordered ["out"] "" "" 0 Demo.start.
Proof.
  apply (pages_walked_in_order Demo.ext Demo.outline_remote 5 Demo.outline_pages ["out"] 0
           Demo.start).
  - repeat constructor; apply demo_page_is_page; lia.
  - apply (bool_decide_unpack _). vm_compute. reflexivity.
Defined.

(** The three pages of the specification's example, (order 1, level 0,
    Root), (order 2, level 1, Child) and (order 3, level 2, Grand), are
    written to [Root.html], [Root.NOTES/Child.html] and
    [Root.NOTES/Child.NOTES/Grand.html] of the section directory, in
    whatever order the section lists them. *)
Example nesting_example :
  Forall (λ pages,
    list_to_set (Demo.files (fs (Demo.world_of
      (download_pages Demo.ext Demo.outline_remote 5 pages ["out"] [] 0 Demo.start))))
    = ({[ "out/Root.html"; "out/Root.NOTES/Child.html";
          "out/Root.NOTES/Child.NOTES/Grand.html" ]} : gset string))
    [Demo.outline_pages; reverse Demo.outline_pages].
Proof. repeat constructor; vm_compute; reflexivity. Qed.

(** Two pages of one section with the same order: nothing is sorted and
    no page is walked. *)
Lemma equal_orders_counterexample :
  let pages := [Demo.page 1 0 "Root"; Demo.page 1 1 "Child"] in
  Forall is_page pages
  ∧ download_pages Demo.ext Demo.outline_remote 5 pages ["out"] [] 0 Demo.start
    = Raise TypeError Demo.start.
Proof.
  split.
  - repeat constructor; apply demo_page_is_page; lia.
  - vm_compute. reflexivity.
Qed.

Lemma equal_orders_raise_witness :
  download_pages Demo.ext Demo.outline_remote 1
    [Demo.page 7 0 "Monday"; Demo.page 8 0 "Tuesday"; Demo.page 7 1 "Notes"] ["out"] [] 0
    Demo.start
  = Raise TypeError Demo.start.
Proof.
  apply (equal_orders_raise Demo.ext Demo.outline_remote 1 _ ["out"] 0 Demo.start
           (Demo.page 7 0 "Monday") (Demo.page 7 1 "Notes")).
  - repeat constructor; by eexists.
  - set_solver.
  - set_solver.
  - reflexivity.
  - intros E. apply (f_equal (λ m : item, m !! "title")) in E. vm_compute in E. discriminate E.
Defined.

(** ** The selection filter *)

Lemma matching_filter ext items segment :
  Forall named items →
  matching ext items segment = inr (List.filter (matches ext segment) items).
Proof.
  induction 1 as [|it items [s Hs] _ IH]; [done|].
  simpl. unfold matches. rewrite Hs, IH. simpl.
  by destruct (fnmatch ext (str_lower ext s) (str_lower ext segment)).
Qed.

Lemma filter_filter {A} (P : A → bool) (l : list A) :
  List.filter P (List.filter P l) = List.filter P l.
Proof.
  induction l as [|a l IH]; [done|]. simpl.
  destruct (P a) eqn:E; [|done]. simpl. by rewrite E, IH.
Qed.

Lemma Forall_filter {A} (Q : A → Prop) (P : A → bool) (l : list A) :
  Forall Q l → Forall Q (List.filter P l).
Proof.
  induction 1 as [|a l Ha _ IH]; [constructor|]. simpl.
  destruct (P a); [by constructor|done].
Qed.

Lemma selected_named ext sel items :
  Forall named items → Forall named (selected ext sel items).
Proof. destruct sel; [done|]. apply Forall_filter. Qed.

Lemma filter_items_run ext items sel name indent w :
  Forall named items →
  filter_items ext items sel name indent w
  = Ok (selected ext sel items, tail sel) (after_filter ext sel items name indent w).
Proof.
  intros H. destruct sel as [|segment rest]; [done|].
  unfold filter_items, after_filter, selected.
  rewrite (matching_filter _ _ _ H). simpl.
  unfold mbind, M_bind, mret, M_ret. simpl.
  by destruct (decide (List.filter (matches ext segment) items = [])).
Qed.

Lemma filter_items_selected ext items sel name indent w :
  Forall named items →
  filter_items ext (selected ext sel items) sel name indent w
  = filter_items ext items sel name indent w.
Proof.
  intros H.
  rewrite !filter_items_run by (done || by apply selected_named).
  destruct sel as [|segment rest]; [done|].
  unfold after_filter, selected. by rewrite !filter_filter.
Qed.

Lemma for_each_prints {A} (l : list A) (line : A → string) w :
  ∃ w', for_each l (λ a, print (line a)) w = Ok tt w'
        ∧ fs w' = fs w ∧ requests w' = requests w.
Proof.
  revert w. induction l as [|a l IH]; intros w; [by eexists|].
  simpl. unfold mbind, M_bind. simpl.
  destruct (IH {| fs := fs w; requests := requests w; slept := slept w;
                  stdout := stdout w ++ [line a] |}) as (w' & -> & ? & ?).
  by exists w'.
Qed.

Lemma announce_run notebooks w :
  ∃ w', announce notebooks w = Ok tt w' ∧ fs w' = fs w ∧ requests w' = requests w.
Proof.
  unfold announce, indent_print, mbind, M_bind. simpl.
  edestruct (for_each_prints notebooks
               (λ n : item, str_of (default VNone (n !! "displayName"))))
    as (w' & -> & Hf & Hr).
  eexists. split; [reflexivity|]. simpl. by rewrite Hf, Hr.
Qed.

Lemma download_notebooks_announce ext remote fuel path sel indent w notebooks w1 w2 :
  get_json remote fuel (VStr notebooks_url) w = Ok notebooks w1 →
  announce notebooks w1 = Ok tt w2 →
  download_notebooks ext remote fuel path sel indent w
  = open_notebooks ext remote fuel notebooks path sel indent w2.
Proof.
  intros Hg Ha. unfold download_notebooks.
  rewrite (bind_ok _ _ _ _ _ Hg).
  revert Ha. unfold announce, indent_print, mbind, M_bind. simpl.
  destruct (for_each notebooks _ _) as [[] w3| |]; [|done..].
  by intros [= <-].
Qed.

Lemma open_notebooks_selected ext remote fuel items path sel indent w :
  Forall named items →
  open_notebooks ext remote fuel items path sel indent w
  = open_notebooks ext remote fuel (selected ext sel items) path sel indent w.
Proof.
  intros H. unfold open_notebooks, mbind, M_bind.
  by rewrite filter_items_selected.
Qed.

(** C7. With no segment left the filter hands back the collection as it
    is, with the empty list; otherwise it hands back exactly the items whose
    name matches the first segment, as a glob and whatever the case of the
    segment and of the name, with the rest of the segments.  It fetches
    nothing.  The four walkers filter before they open anything: a notebook,
    section group, section or page that does not match is never opened, the
    walk is the walk of the selected items alone. *)
Theorem filter_items_selects (ext : Externals) (remote : Remote) (fuel : nat)
    (items : list item) (sel : list string) (name : string) (path : Path)
    (indent : nat) (w : World) :
  Forall named items →
  (∃ w', filter_items ext items sel name indent w
         = Ok (selected ext sel items, tail sel) w'
         ∧ fs w' = fs w ∧ requests w' = requests w)
  ∧ selected ext [] items = items
  ∧ (∀ segment rest it,
       sel = segment :: rest →
       it ∈ selected ext sel items
       ↔ it ∈ items
         ∧ ∃ s, item_name it = VStr s
                ∧ fnmatch ext (str_lower ext s) (str_lower ext segment) = true)
  ∧ (∀ segment segment' rest rest',
       sel = segment :: rest → same_case ext segment segment' →
       selected ext (segment' :: rest') items = selected ext sel items)
  ∧ (∀ segment rest it it' s s',
       sel = segment :: rest →
       item_name it = VStr s → item_name it' = VStr s' → same_case ext s s' →
       selected ext sel [it] = [it] ↔ selected ext sel [it'] = [it'])
  ∧ (∀ w0 w1, get_json remote fuel (VStr notebooks_url) w0 = Ok items w1 →
       ∃ w2, announce items w1 = Ok tt w2
             ∧ fs w2 = fs w1 ∧ requests w2 = requests w1
             ∧ download_notebooks ext remote fuel path sel indent w0
               = open_notebooks ext remote fuel (selected ext sel items) path sel indent w2)
  ∧ open_notebooks ext remote fuel items path sel indent w
    = open_notebooks ext remote fuel (selected ext sel items) path sel indent w
  ∧ download_section_groups ext remote fuel items path sel indent w
    = download_section_groups ext remote fuel (selected ext sel items) path sel indent w
  ∧ download_sections ext remote fuel items path sel indent w
    = download_sections ext remote fuel (selected ext sel items) path sel indent w
  ∧ download_pages ext remote fuel items path sel indent w
    = download_pages ext remote fuel (selected ext sel items) path sel indent w.
Proof.
  intros H. repeat apply conj.
  - eexists. split; [by apply filter_items_run|].
    unfold after_filter. destruct sel; [done|]. by destruct (decide _).
  - done.
  - intros segment rest it ->. simpl.
    rewrite list_elem_of_In, filter_In, <- list_elem_of_In. unfold matches.
    split.
    + intros [Hin Hm]. split; [done|].
      destruct (item_name it) as [| |s]; [done..|]. by exists s.
    + intros [Hin (s & Hs & Hm)]. split; [done|]. by rewrite Hs.
  - intros segment segment' rest rest' -> Hc. simpl.
    apply filter_ext. intros it. unfold matches.
    destruct (item_name it); [done..|]. by rewrite Hc.
  - intros segment rest it it' s s' -> Hs Hs' Hc. simpl.
    unfold matches. rewrite Hs, Hs', Hc.
    by destruct (fnmatch ext (str_lower ext s') (str_lower ext segment)).
  - intros w0 w1 Hg.
    destruct (announce_run items w1) as (w2 & Ha & Hf & Hr).
    exists w2. repeat split; [done..|].
    rewrite (download_notebooks_announce _ _ _ _ _ _ _ _ _ _ Hg Ha).
    by apply open_notebooks_selected.
  - by apply open_notebooks_selected.
  - unfold download_section_groups, mbind, M_bind.
    by rewrite filter_items_selected.
  - unfold download_sections, mbind, M_bind.
    by rewrite filter_items_selected.
  - unfold download_pages, mbind at 1 4, M_bind.
    by rewrite filter_items_selected.
Qed.

Lemma demo_section_named name : named (Demo.section name).
Proof. by exists name. Qed.

Lemma demo_notebook_named name : named (Demo.notebook name).
Proof. by exists name. Qed.

Lemma filter_items_selects_witness :
  let items := [Demo.notebook "Work"; Demo.notebook "Personal"] in
  (∃ w', filter_items Demo.ext items ["w*"] "notebooks" 0 Demo.start
         = Ok ([Demo.notebook "Work"], []) w'
         ∧ fs w' = fs Demo.start ∧ requests w' = requests Demo.start)
  ∧ selected Demo.ext ["W*"] items = [Demo.notebook "Work"]
  ∧ (∃ w2, download_notebooks Demo.ext Selection.remote 2 ["out"] ["w*"] 0 Demo.start
           = open_notebooks Demo.ext Selection.remote 2 [Demo.notebook "Work"] ["out"] ["w*"] 0
               w2).
Proof.
  intros items.
  destruct (filter_items_selects Demo.ext Selection.remote 2 items ["w*"] "notebooks" ["out"] 0
              Demo.start) as (H1 & _ & _ & H2 & _ & H3 & _).
  - repeat constructor; apply demo_notebook_named.
  - split; [exact H1|]. split; [exact (H2 "w*" "W*" [] [] eq_refl eq_refl)|].
    edestruct (H3 Demo.start) as (w2 & _ & _ & _ & H4); [vm_compute; reflexivity|].
    exists w2. exact H4.
Defined.

(** Notebooks Work and Personal, selector [w*]: only Work is opened, and
    no endpoint of Personal is requested. *)
Example selection_example :
  requests (Demo.world_of
    (download_notebooks Demo.ext Selection.remote 2 ["out"] ["w*"] 0 Demo.start))
  = [notebooks_url; "nb/Work/sections"; "nb/Work/groups"; "sec/Plans/pages?pagelevel=true";
     "page/Monday"].
Proof. vm_compute. reflexivity. Qed.

Example selection_example_all :
  requests (Demo.world_of
    (download_notebooks Demo.ext Selection.remote 2 ["out"] [] 0 Demo.start))
  = [notebooks_url;
     "nb/Work/sections"; "nb/Work/groups"; "sec/Plans/pages?pagelevel=true"; "page/Monday";
     "nb/Personal/sections"; "nb/Personal/groups"; "sec/Diary/pages?pagelevel=true";
     "page/Today"].
Proof. vm_compute. reflexivity. Qed.

(** ** The attachment resolver *)

Lemma exists_after_write t p data t' :
  write_file t p data = inr t' → exists_ t' p = true.
Proof.
  unfold write_file, exists_, stat.
  destruct (is_anchor p) eqn:Ea; [done|].
  destruct (t !! p) as [[|]|]; [done| |];
    (destruct (if is_anchor (parent p) then _ else _) as [[|]|]; [|done..];
     intros [= <-]; by rewrite lookup_insert_eq).
Qed.

Lemma strip_prefix_length pre s r :
  strip_prefix pre s = Some r → String.length s = (String.length pre + String.length r)%nat.
Proof.
  revert s. induction pre as [|a pre IH]; intros s; simpl.
  - by intros [= ->].
  - destruct s as [|b s]; [done|]. destruct (Ascii.eqb a b); [|done].
    intros H. simpl. by rewrite (IH _ H).
Qed.

Lemma find_close_length s inner rest :
  find_close s = Some (inner, rest) →
  String.length s = (String.length inner + 2 + String.length rest)%nat.
Proof.
  revert inner. induction s as [|c s IH]; intros inner; [done|].
  cbn [find_close]. destruct (strip_prefix "/>" (String c s)) as [r|] eqn:E.
  - intros [= <- <-]. by apply strip_prefix_length in E.
  - destruct (find_close s) as [[i r]|]; [|done].
    intros [= <- <-]. simpl. rewrite (IH i); [lia|done].
Qed.

(** The scan of [re.sub] comes to an end: it gives up only if the callback
    does. *)
Lemma sub_tags_ends n opening repl s w :
  (String.length s < n)%nat →
  (∀ tag w', repl tag w' ≠ Timeout) →
  sub_tags n opening repl s w ≠ Timeout.
Proof.
  intros Hn Hr. revert s w Hn. induction n as [|n IH]; intros s w Hn; [lia|].
  destruct s as [|c s]; [done|]. simpl in Hn. cbn [sub_tags].
  destruct (strip_prefix opening (String c s) ≫= find_close) as [[inner rest]|] eqn:E.
  - unfold mbind at 1, M_bind.
    destruct (repl _ w) as [r w1| |] eqn:E1; [|done|by apply Hr in E1].
    unfold mbind, M_bind.
    destruct (sub_tags n opening repl rest w1) as [| |] eqn:E2; [done..|].
    exfalso. apply (IH rest w1); [|done].
    destruct (strip_prefix opening (String c s)) as [r0|] eqn:E0; [|done].
    simpl in E. apply find_close_length in E. apply strip_prefix_length in E0.
    simpl in E0. lia.
  - unfold mbind, M_bind.
    destruct (sub_tags n opening repl s w) as [| |] eqn:E2; [done..|].
    exfalso. apply (IH s w); [lia|done].
Qed.

Lemma append_cons c (a b : string) : String c a +:+ b = String c (a +:+ b).
Proof. done. Qed.




Lemma strip_prefix_same pre r : strip_prefix pre (pre +:+ r) = Some r.
Proof.
  induction pre as [|a pre IH]; [done|]. rewrite append_cons. simpl.
  by rewrite Ascii.eqb_refl.
Qed.


(** *** A pass of [re.sub], piece by piece *)








Lemma sub_tags_absent n opening repl s w :
  occurs opening s = false → (String.length s < n)%nat →
  sub_tags n opening repl s w = Ok s w.
Proof.
  revert s. induction n as [|n IH]; intros s Ho Hn; [lia|].
  destruct s as [|c s]; [done|]. simpl in Ho, Hn. cbn [sub_tags].
  destruct (strip_prefix opening (String c s)); [done|]. simpl.
  unfold mbind, M_bind. rewrite IH by (done || lia). done.
Qed.

Lemma close_objects_absent n s : occurs "<object " s = false → close_objects n s = s.
Proof.
  revert s. induction n as [|n IH]; intros s Ho; [by destruct s|].
  destruct s as [|c s]; [done|]. cbn [occurs] in Ho. cbn [close_objects].
  destruct (strip_prefix "<object " (String c s)); [done|]. simpl.
  by rewrite IH.
Qed.

(** *** The closing pass (line 156) next to the object pass *)








(** *** The callbacks *)

Lemma get_loop_fs remote n url indent w r w' :
  get_loop remote n url indent w = Ok r w' → fs w' = fs w.
Proof.
  revert w. induction n as [|n IH]; intros w; [done|]. simpl.
  unfold mbind at 1, M_bind at 1, client_get.
  set (resp := remote (length (requests w)) url).
  destruct (Z.eqb_spec (status_code resp) 429).
  { unfold indent_print, print, sleep, mbind, M_bind. intros H. by apply IH in H. }
  destruct (Z.eqb_spec (status_code resp) 500).
  { unfold indent_print, print, mbind, M_bind, mret, M_ret. by intros [= <- <-]. }
  destruct (Z.eqb_spec (status_code resp) 504).
  { unfold indent_print, print, mbind, M_bind, mret, M_ret. by intros [= <- <-]. }
  unfold raise_for_status, mbind, M_bind. destruct (_ && _); [done|].
  unfold mret, M_ret. by intros [= <- <-].
Qed.

Lemma get_fs remote fuel url indent w r w' :
  get remote fuel url indent w = Ok r w' → fs w' = fs w.
Proof. destruct url; [done..|]. apply get_loop_fs. Qed.

Section Resolver.

Variables (ext : Externals) (remote : Remote) (fuel : nat).
Variables (out_dir : Path) (page_title : string) (indent : nat).

(** Unfold the callback on a tag the resolver can read. *)
Ltac read_tag kind Hd :=
  destruct kind; unfold derive in Hd;
  unfold resolve, download_image, download_attachment, parse_props, props_item;
  (destruct (tag_attrs ext _) as [attrs|]; [|done]); cbn [mbind option_bind] in Hd;
  repeat match type of Hd with
    | context [props_get ?p ?k] =>
        let E := fresh "E" in
        destruct (props_get p k) as [[?|]|] eqn:E;
        cbn [mbind option_bind mjoin option_join default from_option id] in Hd; try done
    end;
  injection Hd as <-;
  repeat (unfold mbind at 1, M_bind at 1, mret at 1, M_ret at 1;
          cbn [default from_option id file_name source_url local_tag url_of];
          repeat match goal with
                 | E : props_get _ _ = _ |- _ => rewrite E
                 end).

(** The gate: a file that is there is not fetched again. *)
Lemma resolve_present kind tag d w :
  derive ext page_title kind tag = Some d →
  exists_ (fs w) (local_file out_dir page_title d) = true →
  ∃ w', resolve ext remote fuel out_dir page_title indent kind tag w
        = ends_with (local_tag d) w'
        ∧ fs w' = fs w ∧ requests w' = requests w ∧ slept w' = slept w.
Proof.
  intros Hd He. read_tag kind Hd; unfold local_file in He; cbn [file_name] in He;
    unfold path_exists; rewrite He;
    unfold indent_print, print, mbind, M_bind, lift;
    match goal with |- context [generate_html ?e ?t ?p] =>
      destruct (generate_html e t p) end; by eexists.
Qed.


(** A fetched binary: the directory is made, the file written, and the
    tag rewritten. *)
Lemma resolve_fetched kind tag d w resp wg t1 t2 :
  derive ext page_title kind tag = Some d →
  exists_ (fs w) (local_file out_dir page_title d) = false →
  get remote fuel (VStr (source_url d)) indent w = Ok (Some resp) wg →
  mkdir_exist_ok (fs w) (attachment_dir out_dir page_title) = inr t1 →
  write_file t1 (local_file out_dir page_title d) (text resp) = inr t2 →
  ∃ w1, resolve ext remote fuel out_dir page_title indent kind tag w
        = ends_with (local_tag d) w1
        ∧ fs w1 = t2 ∧ requests w1 = requests wg.
Proof.
  intros Hd He Hg Hm Hw. rewrite <- (get_fs _ _ _ _ _ _ _ Hg) in Hm. revert Hg Hw.
  read_tag kind Hd; unfold local_file in *; cbn [file_name] in *;
    unfold path_exists; rewrite He; intros Hg Hw;
    rewrite (bind_ok _ _ _ _ _ Hg);
    unfold indent_print, print, on_fs, mbind, M_bind, lift; cbn [fs set_fs];
    rewrite Hm; cbn [fs set_fs]; rewrite Hw;
    match goal with |- context [generate_html ?e ?t ?p] =>
      destruct (generate_html e t p) end; by eexists.
Qed.


End Resolver.



(** Two object tags that name one file, on a page: one request. *)
Example attachment_dedup_example :
  requests (Demo.world_of
    (download_attachments Demo.ext Attachments.online 1 ["out"] "Page" 0
       ("<p>" +:+ Attachments.pdf_tag +:+ "</p><p>" +:+ Attachments.pdf_again +:+ "</p>")
       Attachments.empty_dir))
  = ["att/1"].
Proof. vm_compute. reflexivity. Qed.



(** An image reference whose binary is unavailable, inside a page: the
    page text is as before. *)
Example unavailable_image_example :
  let content := "<div>" +:+ Attachments.img_tag +:+ "</div>" in
  ∃ w', download_attachments Demo.ext Attachments.offline 1 ["out"] "Page" 0
          content Attachments.empty_dir
        = Ok content w'
        ∧ fs w' = fs Attachments.empty_dir.
Proof. eexists. split; vm_compute; reflexivity. Qed.

(** An object tag that runs over two lines is not closed by line 156: the
    page comes back as it was. *)
Example unavailable_object_two_lines :
  let content :=
    "<object data-attachment='sheet.pdf'" +:+ String newline "" +:+ " data='att/1' />" in
  ∃ w', download_attachments Demo.ext Attachments.offline 1 ["out"] "Page" 0
          content Attachments.empty_dir
        = Ok content w'
        ∧ fs w' = fs Attachments.empty_dir.
Proof. eexists. split; vm_compute; reflexivity. Qed.

(** ** Directory names *)

(** C2 (the code departs from it). Only the title of a page goes through
    [sanitize_filename] and [sanitize_filepath]; the display names of a
    notebook, a section group and a section are joined to the output path as
    the remote sent them.  Here the page [Mon:day] is written as
    [Monday.html], while the notebook [Work/2024: Q1] and the section
    [Pl:ans] become the directories [Work], [2024: Q1.SECTIONS] and
    [Pl:ans.NOTES]; and a notebook called [/srv/www] takes the export out of
    the output directory. *)
Theorem container_names_not_sanitized :
  Demo.files (fs (Demo.world_of
    (download_notebooks Demo.ext Unsanitized.remote 2 ["out"] [] 0 Demo.start)))
  = ["out/Work/2024: Q1.SECTIONS/Pl:ans.NOTES/Monday.html"]
  ∧ sanitize_filepath Demo.ext (sanitize_filename Demo.ext "Work/2024: Q1") = "Work2024 Q1"
  ∧ sanitize_filepath Demo.ext (sanitize_filename Demo.ext "Pl:ans") = "Plans"
  ∧ Demo.files (fs (Demo.world_of
      (download_notebooks Demo.ext Unsanitized.rooted 2 ["out"] [] 0 Demo.start)))
    = ["/srv/www.SECTIONS/Plans.NOTES/Monday.html"].
Proof. repeat split; vm_compute; reflexivity. Qed.

(** ** Running the export again *)

Lemma same_kind_refl n : same_kind n n.
Proof. by destruct n. Qed.

Lemma same_kind_trans a b c : same_kind a b → same_kind b c → same_kind a c.
Proof. by destruct a, b, c. Qed.

Lemma keeps_refl t : keeps t t.
Proof. intros p n H. exists n. split; [done|apply same_kind_refl]. Qed.

Lemma keeps_trans t1 t2 t3 : keeps t1 t2 → keeps t2 t3 → keeps t1 t3.
Proof.
  intros H12 H23 p n H. destruct (H12 p n H) as (n2 & H2 & K2).
  destruct (H23 p n2 H2) as (n3 & H3 & K3). exists n3. split; [done|].
  by eapply same_kind_trans.
Qed.

Lemma keeps_insert (t : tree) p (n : node) :
  (∀ old, t !! p = Some old → same_kind old n) → keeps t (<[p := n]> t).
Proof.
  intros H q m Hq. destruct (decide (p = q)) as [->|Hne].
  - exists n. rewrite lookup_insert_eq. split; [done|]. by apply H.
  - exists m. rewrite lookup_insert_ne by done. split; [done|apply same_kind_refl].
Qed.

Lemma keeps_exists t t' p : keeps t t' → exists_ t p = true → exists_ t' p = true.
Proof.
  unfold exists_, stat. intros H. destruct (is_anchor p); [done|].
  destruct (t !! p) as [n|] eqn:E; [|done].
  destruct (H p n E) as (n' & -> & _). done.
Qed.

Lemma keeps_is_dir t t' p : keeps t t' → is_dir t p = true → is_dir t' p = true.
Proof.
  unfold is_dir, stat. intros H. destruct (is_anchor p); [done|].
  destruct (t !! p) as [n|] eqn:E; [|done].
  destruct (H p n E) as (n' & -> & K). by destruct n, n'.
Qed.

Lemma stat_None t p : stat t p = None → t !! p = None.
Proof. unfold stat. by destruct (is_anchor p). Qed.

Lemma os_mkdir_keeps t p t' : os_mkdir t p = inr t' → keeps t t'.
Proof.
  unfold os_mkdir. destruct (stat t p) eqn:E; [done|].
  destruct (stat t (parent p)) as [[|]|]; [|done..].
  intros [= <-]. apply keeps_insert. intros old Ho.
  apply stat_None in E. by rewrite E in Ho.
Qed.

Lemma os_mkdir_is_dir t p t' : os_mkdir t p = inr t' → is_dir t' p = true.
Proof.
  unfold os_mkdir. destruct (stat t p) eqn:E; [done|].
  destruct (stat t (parent p)) as [[|]|]; [|done..].
  intros [= <-]. unfold is_dir, stat. destruct (is_anchor p); [done|].
  by rewrite lookup_insert_eq.
Qed.

Lemma mkdir_exist_ok_keeps t p t' : mkdir_exist_ok t p = inr t' → keeps t t'.
Proof.
  unfold mkdir_exist_ok. destruct (os_mkdir t p) as [e|t1] eqn:E.
  - destruct e; try done; destruct (is_dir t p); try done;
      intros [= <-]; apply keeps_refl.
  - intros [= <-]. by eapply os_mkdir_keeps.
Qed.

Lemma mkdir_exist_ok_is_dir t p t' : mkdir_exist_ok t p = inr t' → is_dir t' p = true.
Proof.
  unfold mkdir_exist_ok. destruct (os_mkdir t p) as [e|t1] eqn:E.
  - destruct e; try done; destruct (is_dir t p) eqn:Ed; try done;
      by intros [= <-].
  - intros [= <-]. by eapply os_mkdir_is_dir.
Qed.

Lemma mkdir_parents_go_keeps n t p t' :
  mkdir_parents_go n t p = inr t' → keeps t t' ∧ is_dir t' p = true.
Proof.
  revert t p t'. induction n as [|n IH]; intros t p t'; simpl.
  - destruct (os_mkdir t p) as [e|t1] eqn:E.
    + destruct e; try done; destruct (is_dir t p) eqn:Ed; try done;
        intros [= <-]; (split; [apply keeps_refl|done]).
    + intros [= <-]. split; [by eapply os_mkdir_keeps|by eapply os_mkdir_is_dir].
  - destruct (os_mkdir t p) as [e|t1] eqn:E.
    + destruct e; try (destruct (is_dir t p) eqn:Ed; try done;
        intros [= <-]; (split; [apply keeps_refl|done])).
      destruct (decide (parent p = p)); [done|].
      destruct (mkdir_parents_go n t (parent p)) as [|t1] eqn:E1; [done|].
      intros H. destruct (IH _ _ _ E1) as [K _]. split.
      * eapply keeps_trans; [exact K|]. by eapply mkdir_exist_ok_keeps.
      * by eapply mkdir_exist_ok_is_dir.
    + intros [= <-]. split; [by eapply os_mkdir_keeps|by eapply os_mkdir_is_dir].
Qed.

Lemma mkdir_parents_keeps t p t' : mkdir_parents t p = inr t' → keeps t t'.
Proof. intros H. by apply mkdir_parents_go_keeps in H as [? _]. Qed.

Lemma mkdir_parents_is_dir t p t' : mkdir_parents t p = inr t' → is_dir t' p = true.
Proof. intros H. by apply mkdir_parents_go_keeps in H as [_ ?]. Qed.

(** On a directory that is there, [mkdir(parents=True, exist_ok=True)]
    does nothing. *)
Lemma mkdir_parents_there t p : is_dir t p = true → mkdir_parents t p = inr t.
Proof.
  intros H. unfold mkdir_parents.
  assert (os_mkdir t p = inl FileExistsError) as E.
  { unfold os_mkdir. unfold is_dir in H. by destruct (stat t p). }
  destruct (length p); simpl; by rewrite E, H.
Qed.

Lemma write_file_keeps t p data t' : write_file t p data = inr t' → keeps t t'.
Proof.
  unfold write_file, stat.
  destruct (is_anchor p) eqn:Ea; [done|].
  destruct (t !! p) as [[|old]|] eqn:E; [done| |];
    (destruct (if is_anchor (parent p) then _ else _) as [[|]|]; [|done..];
     intros [= <-]; apply keeps_insert; intros o Ho; rewrite E in Ho; by simplify_eq).
Qed.

Lemma on_fs_inv op w a w' :
  on_fs op w = Ok a w' → ∃ t', op (fs w) = inr t' ∧ w' = set_fs t' w.
Proof.
  unfold on_fs. destruct (op (fs w)) as [|t'] eqn:E; [done|].
  intros [= _ <-]. by exists t'.
Qed.

(** *** Calls that only add to the tree *)

Lemma extends_ret {A} (a : A) : extends (mret a : M A).
Proof. intros w a' w' [= _ <-]. apply keeps_refl. Qed.

Lemma extends_raise {A} e : extends (raise e : M A).
Proof. by intros w a w'. Qed.

Lemma extends_timeout {A} : extends (timeout : M A).
Proof. by intros w a w'. Qed.

Lemma extends_lift {A} (r : exn + A) : extends (lift r).
Proof. destruct r; [apply extends_raise|apply extends_ret]. Qed.

Lemma extends_bind {A B} (m : M A) (f : A → M B) :
  extends m → (∀ a, extends (f a)) → extends (m ≫= f).
Proof.
  intros Hm Hf w b w' H. apply bind_inv in H as (a & w1 & H1 & H2).
  eapply keeps_trans; [by eapply Hm|by eapply Hf].
Qed.

Lemma extends_print line : extends (print line).
Proof. intros w a w' [= _ <-]. apply keeps_refl. Qed.

Lemma extends_sleep s : extends (sleep s).
Proof. intros w a w' [= _ <-]. apply keeps_refl. Qed.

Lemma extends_path_exists p : extends (path_exists p).
Proof. intros w a w' [= _ <-]. apply keeps_refl. Qed.

Lemma extends_on_fs op :
  (∀ t t', op t = inr t' → keeps t t') → extends (on_fs op).
Proof.
  intros H w a w' Hr. apply on_fs_inv in Hr as (t' & Ht & ->). by apply H.
Qed.

Lemma extends_client_get remote url : extends (client_get remote url).
Proof. intros w a w' [= _ <-]. apply keeps_refl. Qed.

Lemma extends_props_item p k : extends (props_item p k).
Proof. unfold props_item. destruct (props_get p k); [apply extends_ret|apply extends_raise]. Qed.

Lemma extends_getitem d k : extends (getitem d k).
Proof. unfold getitem. destruct (d !! k); [apply extends_ret|apply extends_raise]. Qed.

(** Decompose a call into the calls it is made of. *)
Ltac extends_step :=
  first
    [ apply extends_ret | apply extends_raise | apply extends_timeout | apply extends_lift
    | apply extends_print | apply extends_sleep | apply extends_path_exists
    | apply extends_client_get | apply extends_props_item | apply extends_getitem
    | apply extends_bind; [|intros ?]
    | match goal with
      | |- extends (match ?x with _ => _ end) => destruct x
      | |- extends (if ?b then _ else _) => destruct b
      end ].

Lemma extends_get_loop remote n url indent : extends (get_loop remote n url indent).
Proof.
  induction n as [|n IH]; simpl; [apply extends_timeout|].
  unfold raise_for_status, indent_print. repeat extends_step. exact IH.
Qed.

Lemma extends_get remote fuel url indent : extends (get remote fuel url indent).
Proof. unfold get. destruct url; try apply extends_raise. apply extends_get_loop. Qed.

Lemma extends_sub_tags n opening repl s :
  (∀ tag, extends (repl tag)) → extends (sub_tags n opening repl s).
Proof.
  intros H. revert s. induction n as [|n IH]; intros s.
  - destruct s; simpl; [apply extends_ret|apply extends_timeout].
  - destruct s as [|c s]; simpl; [apply extends_ret|].
    repeat extends_step; apply H || apply IH.
Qed.

Lemma extends_download_image ext remote fuel out_dir title indent tag :
  extends (download_image ext remote fuel out_dir title indent tag).
Proof.
  unfold download_image, parse_props, indent_print.
  repeat extends_step; try apply extends_get;
    apply extends_on_fs; intros t t'.
  - apply mkdir_exist_ok_keeps.
  - apply write_file_keeps.
Qed.

Lemma extends_download_attachment ext remote fuel out_dir title indent tag :
  extends (download_attachment ext remote fuel out_dir title indent tag).
Proof.
  unfold download_attachment, parse_props, indent_print.
  repeat extends_step; try apply extends_get;
    apply extends_on_fs; intros t t'.
  - apply mkdir_exist_ok_keeps.
  - apply write_file_keeps.
Qed.

Lemma extends_download_attachments ext remote fuel out_dir title indent content :
  extends (download_attachments ext remote fuel out_dir title indent content).
Proof.
  unfold download_attachments.
  repeat extends_step; apply extends_sub_tags; intros tag.
  - apply extends_download_image.
  - apply extends_download_attachment.
Qed.

Lemma extends_download_page ext remote fuel url path title indent :
  extends (download_page ext remote fuel url path title indent).
Proof.
  unfold download_page, indent_print.
  repeat extends_step;
    first [ apply extends_get
          | apply extends_sub_tags; intros tag;
            first [apply extends_download_image | apply extends_download_attachment]
          | apply extends_on_fs; intros t t';
            first [apply mkdir_parents_keeps | apply write_file_keeps] ].
Qed.

(** *** Calls that do nothing the second time *)

Section Settling.

Variable remote : Remote.
Hypothesis remote_stable : stable remote.

(** A call that neither reads the tree nor makes a request. *)
Lemma settles_quiet {A} (c : M A) :
  (∀ w a w', c w = Ok a w' →
     fs w' = fs w
     ∧ ∀ w2, ∃ w2', c w2 = Ok a w2' ∧ fs w2' = fs w2 ∧ requests w2' = requests w2) →
  settles remote c.
Proof.
  intros H. split.
  - intros w a w' Hr. destruct (H _ _ _ Hr) as [-> _]. apply keeps_refl.
  - intros w a w' Hr w2 _. destruct (H _ _ _ Hr) as [_ H2].
    destruct (H2 w2) as (w2' & ? & ? & ?). exists [], w2'.
    rewrite app_nil_r. by repeat split.
Qed.

Lemma settles_ret {A} (a : A) : settles remote (mret a : M A).
Proof.
  apply settles_quiet. intros w a' w' [= <- <-]. split; [done|].
  intros w2. by exists w2.
Qed.

Lemma settles_raise {A} e : settles remote (raise e : M A).
Proof. by apply settles_quiet. Qed.

Lemma settles_timeout {A} : settles remote (timeout : M A).
Proof. by apply settles_quiet. Qed.

Lemma settles_lift {A} (r : exn + A) : settles remote (lift r).
Proof. destruct r; [apply settles_raise|apply settles_ret]. Qed.

Lemma settles_print line : settles remote (print line).
Proof.
  apply settles_quiet. intros w [] w' [= <-]. split; [done|].
  intros w2. by eexists.
Qed.

Lemma settles_getitem d k : settles remote (getitem d k).
Proof. unfold getitem. destruct (d !! k); [apply settles_ret|apply settles_raise]. Qed.

Lemma settles_add_str v suffix : settles remote (add_str v suffix).
Proof. destruct v; simpl; try apply settles_raise. apply settles_ret. Qed.

Lemma settles_bind {A B} (m : M A) (f : A → M B) :
  settles remote m → (∀ a, settles remote (f a)) → settles remote (m ≫= f).
Proof.
  intros [Em Im] Hf. split.
  - apply extends_bind; [done|]. intros a. apply Hf.
  - intros w b w' H w2 Hk.
    apply bind_inv in H as (a & w1 & H1 & H2).
    destruct (Hf a) as [Ef If].
    destruct (Im _ _ _ H1 w2) as (q1 & w2a & R1 & F1 & Q1 & N1).
    { eapply keeps_trans; [|exact Hk]. by eapply Ef. }
    destruct (If _ _ _ H2 w2a) as (q2 & w2b & R2 & F2 & Q2 & N2).
    { by rewrite F1. }
    exists (q1 ++ q2), w2b. split; [|split; [|split]].
    + by rewrite (bind_ok _ _ _ _ _ R1).
    + by rewrite F2.
    + by rewrite Q2, Q1, app_assoc.
    + by apply Forall_app.
Qed.

Lemma settles_for_each {A} (l : list A) (body : A → M unit) :
  (∀ x, settles remote (body x)) → settles remote (for_each l body).
Proof.
  intros H. induction l as [|x l IH]; simpl; [apply settles_ret|].
  apply settles_bind; [apply H|]. by intros _.
Qed.

(** What [get] does on a remote that does not change. *)
Lemma get_stable fuel v indent w x w' :
  get remote fuel v indent w = Ok x w' →
  ∃ u, v = VStr u
       ∧ fs w' = fs w
       ∧ ((x = None ∧ is_unavailable (status_code (remote O u)) = true)
          ∨ (x = Some (remote O u) ∧ is_success (remote O u) = true))
       ∧ ∀ w2, ∃ w2', get remote fuel v indent w2 = Ok x w2'
                      ∧ fs w2' = fs w2
                      ∧ requests w2' = requests w2 ++ [u].
Proof.
  destruct v as [| |u]; [done..|]. unfold get. intros H. exists u. split; [done|].
  destruct (decide (status_code (remote O u) = 429%Z)) as [E|NE].
  { rewrite (get_loop_starved remote fuel fuel) in H; [done| |lia].
    intros i _. by rewrite (remote_stable _ O). }
  destruct fuel as [|n]; [done|].
  assert (∀ w0, get_loop remote (S n) u indent w0
                = answer_outcome indent (remote O u) (requested u w0)) as Hg.
  { intros w0. rewrite get_loop_answer; rewrite (remote_stable _ O); done. }
  rewrite Hg in H. unfold answer_outcome in *.
  destruct (is_unavailable (status_code (remote O u))) eqn:Eu.
  - injection H as <- <-. split; [done|]. split; [by left|].
    intros w2. rewrite Hg. by eexists.
  - destruct (is_error_status (status_code (remote O u))) eqn:Ee; [done|].
    injection H as <- <-. split; [done|]. split.
    + right. split; [done|]. unfold is_success. rewrite Eu, Ee.
      by destruct (Z.eqb_spec (status_code (remote O u)) 429).
    + intros w2. rewrite Hg. by eexists.
Qed.

Lemma settles_get_json_loop fuel n link values :
  settles remote (get_json_loop remote fuel n link values).
Proof.
  revert link values. induction n as [|n IH]; intros link values.
  - simpl. destruct (truthy link); [apply settles_timeout|apply settles_ret].
  - simpl. destruct (truthy link); [|apply settles_ret].
    split.
    + apply extends_bind; [apply extends_get|]. intros [r|]; [|apply extends_raise].
      destruct (json r) as [body|]; [|apply extends_raise].
      destruct (value body); [apply IH|apply extends_raise].
    + intros w items w' H w2 Hk.
      apply bind_inv in H as (x & w1 & H1 & H2).
      destruct (get_stable _ _ _ _ _ _ H1) as (u & -> & F1 & Hx & Hre).
      destruct (Hre w2) as (w2a & R1 & F2 & Q1).
      destruct Hx as [[-> _]|[-> Hs]]; [done|].
      destruct (json (remote O u)) as [body|] eqn:Ej; [|done].
      destruct (value body) as [batch|] eqn:Ev; [|done].
      destruct (IH (default VNone (odata_nextLink body)) (values ++ batch)) as [_ I].
      destruct (I _ _ _ H2 w2a) as (q & w2b & R2 & F3 & Q2 & N).
      { by rewrite F2. }
      exists (u :: q), w2b. split; [|split; [|split]].
      * rewrite (bind_ok _ _ _ _ _ R1). cbv beta iota. by rewrite Ej, Ev.
      * by rewrite F3.
      * rewrite Q2, Q1. by rewrite <- app_assoc.
      * constructor; [|done]. left. split; [done|]. by exists body, batch.
Qed.

Lemma settles_get_json fuel url : settles remote (get_json remote fuel url).
Proof. apply settles_get_json_loop. Qed.

End Settling.

(** The gate of the page materializer. *)
Lemma download_page_present ext remote fuel url path title indent w :
  exists_ (fs w) (path </> (title +:+ ".html")) = true →
  download_page ext remote fuel url path title indent w
  = Ok tt (printed (repeat_str indent "  " +:+ "HTML file already exists; skipping this page") w).
Proof.
  intros H. unfold download_page, mbind, M_bind, path_exists. by rewrite H.
Qed.

Section Walk.

Variables (ext : Externals) (remote : Remote) (fuel : nat).
Hypothesis remote_stable : stable remote.

Lemma settles_download_page url path title indent :
  settles remote (download_page ext remote fuel url path title indent).
Proof.
  split; [apply extends_download_page|].
  intros w [] w' Hrun w2 Hk.
  pose proof (extends_download_page _ _ _ _ _ _ _ _ _ _ Hrun) as Hkeep.
  set (out := path </> (title +:+ ".html")) in *.
  destruct (exists_ (fs w2) out) eqn:E2.
  { exists []. eexists. rewrite download_page_present by done.
    rewrite app_nil_r. by repeat split. }
  assert (exists_ (fs w') out = false) as E1.
  { destruct (exists_ (fs w') out) eqn:E; [|done].
    by rewrite (keeps_exists _ _ _ Hk E) in E2. }
  assert (exists_ (fs w) out = false) as E0.
  { destruct (exists_ (fs w) out) eqn:E; [|done].
    by rewrite (keeps_exists _ _ _ Hkeep E) in E1. }
  unfold download_page in Hrun. fold out in Hrun.
  unfold mbind at 1, M_bind at 1, path_exists in Hrun. rewrite E0 in Hrun.
  apply bind_inv in Hrun as ([] & wa & Hmk & Hrun).
  apply on_fs_inv in Hmk as (t1 & Hmk & ->).
  apply bind_inv in Hrun as (x & wb & Hget & Hrun).
  destruct (get_stable remote remote_stable _ _ _ _ _ _ Hget) as (u & -> & Fb & Hx & Hre).
  destruct Hx as [[-> Hu]|[-> Hs]].
  - injection Hrun as <-.
    assert (is_dir (fs w2) path = true) as Hd.
    { eapply keeps_is_dir; [exact Hk|]. rewrite Fb. simpl.
      by eapply mkdir_parents_is_dir. }
    destruct (Hre w2) as (w2' & R & F & Q).
    exists [u], w2'. split; [|split; [|split]]; [|done|done|].
    + unfold download_page. fold out.
      unfold mbind at 1, M_bind at 1, path_exists. rewrite E2.
      unfold mbind at 1, M_bind at 1, on_fs. rewrite (mkdir_parents_there _ _ Hd).
      replace (set_fs (fs w2) w2) with w2 by (by destruct w2).
      by rewrite (bind_ok _ _ _ _ _ R).
    + constructor; [|done]. by right.
  - exfalso.
    apply bind_inv in Hrun as ([] & wc & _ & Hrun).
    apply bind_inv in Hrun as (c1 & wd & _ & Hrun).
    apply bind_inv in Hrun as (c2 & we & _ & Hrun).
    apply on_fs_inv in Hrun as (t2 & Hw & ->). simpl in E1.
    by rewrite (exists_after_write _ _ _ _ Hw) in E1.
Qed.

(** Decompose a call of the walker into the calls it is made of. *)
Ltac settles_with leaf :=
  first
    [ leaf
    | apply settles_ret | apply settles_raise | apply settles_timeout | apply settles_lift
    | apply settles_print | apply settles_getitem | apply settles_add_str
    | apply (settles_get_json remote remote_stable)
    | apply settles_download_page
    | apply settles_for_each; intros ?
    | apply settles_bind; [|intros ?]
    | match goal with
      | |- settles _ (match ?x with _ => _ end) => destruct x
      | |- settles _ (if ?b then _ else _) => destruct b
      end ].

Ltac settles_step := settles_with fail.

Lemma settles_filter_items items sel name indent :
  settles remote (filter_items ext items sel name indent).
Proof. unfold filter_items, indent_print. repeat settles_step. Qed.

Lemma settles_pages_loop pages ld page_dir indent :
  settles remote (pages_loop ext remote fuel pages ld page_dir indent).
Proof.
  revert ld page_dir. induction pages as [|[order page] pages IH]; intros ld page_dir; simpl.
  - apply settles_ret.
  - unfold indent_print. repeat settles_with ltac:(apply IH).
Qed.

Lemma settles_download_pages pages path sel indent :
  settles remote (download_pages ext remote fuel pages path sel indent).
Proof.
  unfold download_pages.
  apply settles_bind; [apply settles_filter_items|]. intros [pages' sel'].
  apply settles_bind; [apply settles_lift|]. intros entries.
  apply settles_pages_loop.
Qed.

Lemma settles_download_sections sections path sel indent :
  settles remote (download_sections ext remote fuel sections path sel indent).
Proof.
  unfold download_sections.
  apply settles_bind; [apply settles_filter_items|]. intros [sections' sel'].
  unfold indent_print. repeat settles_with ltac:(apply settles_download_pages).
Qed.

Lemma settles_download_section_groups groups path sel indent :
  settles remote (download_section_groups ext remote fuel groups path sel indent).
Proof.
  unfold download_section_groups.
  apply settles_bind; [apply settles_filter_items|]. intros [groups' sel'].
  unfold indent_print. repeat settles_with ltac:(apply settles_download_sections).
Qed.

Lemma settles_download_notebooks path sel indent :
  settles remote (download_notebooks ext remote fuel path sel indent).
Proof.
  unfold download_notebooks.
  apply settles_bind; [apply (settles_get_json remote remote_stable)|]. intros notebooks.
  apply settles_bind; [apply settles_print|]. intros _.
  apply settles_bind; [apply settles_print|]. intros _.
  apply settles_bind; [apply settles_for_each; intros ?; apply settles_print|]. intros _.
  apply settles_bind; [apply settles_print|]. intros _.
  apply settles_bind; [apply settles_filter_items|]. intros [notebooks' sel'].
  unfold indent_print.
  repeat settles_with
    ltac:(first [apply settles_download_sections | apply settles_download_section_groups]).
Qed.

End Walk.

(** C4. A page whose file [dir/title.html] is there when its
    materialization begins is skipped: nothing is fetched and nothing is
    written.  Consequently a second export, run after a first one that has
    returned, against a remote that has not changed, leaves the file tree
    identical, and every request it makes downloads nothing: it is answered
    with a list, or is the retry of an unavailable page. *)
Theorem second_run_downloads_nothing (ext : Externals) (remote : Remote) (fuel : nat)
    (url : val) (dir : Path) (title : string)
    (path : Path) (sel : list string) (indent : nat) (w : World) :
  (exists_ (fs w) (dir </> (title +:+ ".html")) = true →
   ∃ w', download_page ext remote fuel url dir title indent w = Ok tt w'
         ∧ fs w' = fs w
         ∧ requests w' = requests w)
  ∧ (stable remote →
     ∀ w1, download_notebooks ext remote fuel path sel indent w = Ok tt w1 →
     ∃ q w2, download_notebooks ext remote fuel path sel indent w1 = Ok tt w2
             ∧ fs w2 = fs w1
             ∧ requests w2 = requests w1 ++ q
             ∧ Forall (downloads_nothing remote) q).
Proof.
  split.
  - intros H. eexists. by rewrite download_page_present.
  - intros Hs w1 Hrun.
    destruct (settles_download_notebooks ext remote fuel Hs path sel indent) as [_ I].
    apply (I _ _ _ Hrun w1). apply keeps_refl.
Qed.

Lemma second_run_downloads_nothing_witness :
  (∃ w', download_page Demo.ext Selection.remote 2 (VStr "page/Monday")
           ["out"; "Work.SECTIONS"; "Plans.NOTES"] "Monday" 0 Selection.first_run = Ok tt w'
         ∧ fs w' = fs Selection.first_run
         ∧ requests w' = requests Selection.first_run)
  ∧ (∃ q w2, download_notebooks Demo.ext Selection.remote 2 ["out"] [] 0 Selection.first_run
             = Ok tt w2
             ∧ fs w2 = fs Selection.first_run
             ∧ requests w2 = requests Selection.first_run ++ q
             ∧ Forall (downloads_nothing Selection.remote) q).
Proof.
  split.
  - destruct (second_run_downloads_nothing Demo.ext Selection.remote 2 (VStr "page/Monday")
                ["out"; "Work.SECTIONS"; "Plans.NOTES"] "Monday" ["out"] [] 0
                Selection.first_run) as [H _].
    apply H. vm_compute. reflexivity.
  - destruct (second_run_downloads_nothing Demo.ext Selection.remote 2 (VStr "page/Monday")
                ["out"; "Work.SECTIONS"; "Plans.NOTES"] "Monday" ["out"] [] 0
                Demo.start) as [_ H].
    apply H.
    + intros t t' url. reflexivity.
    + vm_compute. reflexivity.
Defined.

(** The second export of the two notebooks: the seven list requests
    again, no page request, and the tree of the first export. *)
Example second_run_example :
  let again := Demo.world_of
    (download_notebooks Demo.ext Selection.remote 2 ["out"] [] 0
       {| fs := fs Selection.first_run; requests := []; slept := []; stdout := [] |}) in
  requests again
  = [notebooks_url;
     "nb/Work/sections"; "nb/Work/groups"; "sec/Plans/pages?pagelevel=true";
     "nb/Personal/sections"; "nb/Personal/groups"; "sec/Diary/pages?pagelevel=true"]
  ∧ fs again = fs Selection.first_run
  ∧ Demo.files (fs again)
    = ["out/Personal.SECTIONS/Diary.NOTES/Today.html";
       "out/Work.SECTIONS/Plans.NOTES/Monday.html"].
Proof. repeat split; vm_compute; reflexivity. Qed.

(** ** Pages that cannot be fetched *)

(** An unavailable page is skipped: the call returns, and all it has done
    to the tree is to make the page directory. *)
Lemma download_page_unavailable ext remote fuel url path title indent w :
  exists_ (fs w) (path </> (title +:+ ".html")) = false →
  (0 < fuel)%nat →
  is_unavailable (status_code (answers remote w url)) = true →
  ∀ t, mkdir_parents (fs w) path = inr t →
  ∃ w', download_page ext remote fuel (VStr url) path title indent w = Ok tt w'
        ∧ fs w' = t
        ∧ requests w' = requests w ++ [url].
Proof.
  intros He Hf Hu t Ht. unfold download_page.
  unfold mbind at 1, M_bind at 1, path_exists. rewrite He.
  unfold mbind at 1, M_bind at 1, on_fs. rewrite Ht.
  erewrite bind_ok by (by apply get_unavailable). by eexists.
Qed.

(** A 504 on a page leaves the other pages to be exported; a 403 ends the
    run there. *)
Example unavailable_page_example :
  (∃ w', download_notebooks Demo.ext (Failing.remote 504) 2 ["out"] [] 0 Demo.start = Ok tt w'
         ∧ Demo.files (fs w') = ["out/Work.SECTIONS/Plans.NOTES/Tuesday.html"])
  ∧ (∃ w', download_notebooks Demo.ext (Failing.remote 403) 2 ["out"] [] 0 Demo.start
           = Raise HTTPError w'
           ∧ Demo.files (fs w') = []).
Proof. split; eexists; split; vm_compute; reflexivity. Qed.

(** ** The selector of the command line *)

Lemma split_slash_nonempty s : split_slash s ≠ [].
Proof.
  destruct s as [|c s]; [done|]. simpl.
  destruct (Ascii.eqb c "/"); [done|]. by destruct (split_slash s).
Qed.

Lemma split_slash_clean s : Forall (λ x, has_slash x = false) (split_slash s).
Proof.
  induction s as [|c s IH]; [by repeat constructor|]. simpl.
  destruct (Ascii.eqb c "/") eqn:E; [by constructor|].
  destruct (split_slash s) as [|h t]; [by repeat constructor; simpl; rewrite E|].
  apply Forall_cons in IH as [Hh Ht]. constructor; [|done]. simpl. by rewrite E, Hh.
Qed.

Lemma split_slash_plain s : has_slash s = false → split_slash s = [s].
Proof.
  induction s as [|c s IH]; [done|]. simpl.
  destruct (Ascii.eqb c "/"); [done|]. simpl. intros H. by rewrite (IH H).
Qed.

Lemma split_slash_app a b :
  has_slash a = false →
  split_slash (a +:+ "/" +:+ b) = a :: split_slash b.
Proof.
  induction a as [|c a IH]; [done|]. simpl.
  destruct (Ascii.eqb c "/"); [done|]. simpl. intros H.
  change (String.append a (String "/" b)) with (a +:+ "/" +:+ b).
  by rewrite (IH H).
Qed.

Lemma split_slash_concat segments :
  segments ≠ [] →
  Forall (λ x, has_slash x = false) segments →
  split_slash (String.concat "/" segments) = segments.
Proof.
  induction segments as [|a segments IH]; [done|]. intros _ H.
  apply Forall_cons in H as [Ha H].
  destruct segments as [|b segments]; [by apply split_slash_plain|].
  change (String.concat "/" (a :: b :: segments))
    with (a +:+ "/" +:+ String.concat "/" (b :: segments)).
  rewrite split_slash_app by done. by rewrite IH.
Qed.

(** X1. The selector is cut at its slashes and the empty pieces are
    dropped: every segment the walker gets is non-empty and has no slash,
    however the selector is written (leading, trailing or doubled slashes). *)
Theorem select_segments_clean (select outdir : string) :
  Forall (λ x, x ≠ "" ∧ has_slash x = false) (select_path (main_command select outdir)).
Proof.
  unfold main_command. simpl.
  pose proof (split_slash_clean select) as H.
  induction H as [|x l Hx _ IH]; [constructor|]. simpl.
  destruct (String.eqb_spec x ""); simpl; [done|]. by constructor.
Qed.

(** X2. Writing segments that are non-empty and have no slash with
    slashes between them, and reading the selector back, gives the segments
    again. *)
Theorem select_round_trip (segments : list string) (outdir : string) :
  Forall (λ x, x ≠ "" ∧ has_slash x = false) segments →
  select_path (main_command (String.concat "/" segments) outdir) = segments.
Proof.
  intros H. unfold main_command. simpl.
  destruct segments as [|a segments]; [done|].
  rewrite split_slash_concat; [|done|].
  - induction H as [|x l [Hx _] _ IH]; [done|]. simpl.
    destruct (String.eqb_spec x ""); [done|]. simpl. by rewrite IH.
  - eapply Forall_impl; [exact H|]. by intros x [_ ?].
Qed.

Lemma select_round_trip_witness :
  select_path (main_command "mynotebook/*/mynote" "output") = ["mynotebook"; "*"; "mynote"].
Proof.
  apply (select_round_trip ["mynotebook"; "*"; "mynote"] "output").
  repeat constructor; done.
Defined.

(** ** More on the pagination reader *)

Lemma get_json_loop_endless remote chain fuel n u values w :
  endless remote chain → chain u →
  get_json_loop remote fuel n (VStr u) values w = Timeout.
Proof.
  intros He. revert u values w. induction n as [|n IH]; intros u values w Hu.
  - destruct (He O u Hu) as (Hne & _). simpl. by rewrite (string_eqb_empty _ Hne).
  - destruct (He (length (requests w)) u Hu)
      as (Hne & Hs & body & batch & next & Hj & Hv & Hl & Hnext).
    simpl. rewrite (string_eqb_empty _ Hne). simpl.
    destruct fuel as [|f]; [done|].
    pose proof (get_success remote (S f) u 0 w ltac:(lia) Hs) as Hg. unfold get in Hg.
    rewrite (bind_ok _ _ _ _ _ Hg).
    cbv beta iota. rewrite Hj, Hv, Hl. simpl. by apply IH.
Qed.

(** X3. The reader has no cap on the number of responses and does not
    notice a link it has followed before: on a chain of list responses in
    which each one points on to another (a response that links to itself,
    say) it does not return, however many iterations are allowed. *)
Theorem get_json_follows_forever (remote : Remote) (chain : string → Prop) (fuel : nat)
    (url : string) (w : World) :
  endless remote chain →
  chain url →
  get_json remote fuel (VStr url) w = Timeout.
Proof. intros He Hu. unfold get_json. by eapply get_json_loop_endless. Qed.

Lemma get_json_follows_forever_witness :
  get_json Looping.remote 1000 (VStr "items") Demo.start = Timeout.
Proof.
  apply (get_json_follows_forever Looping.remote (λ u, u = "items") 1000 "items" Demo.start).
  - intros t u ->. split; [done|]. split; [reflexivity|].
    eexists _, _, "items". repeat split; reflexivity.
  - reflexivity.
Defined.

(** X4. Throttling is invisible to the reader: a list request answered
    with 429 [k] times and then with a list that has no continuation link
    gives the items of that list, after [k + 1] requests and [k] sleeps of
    300 seconds. *)
Theorem get_json_waits_for_throttled_list (remote : Remote) (fuel : nat) (url : string)
    (w : World) (k : nat) (body : listing) (batch : list item) :
  url ≠ "" →
  (∀ i, (i < k)%nat → status_code (remote (length (requests w) + i) url) = 429%Z) →
  is_success (remote (length (requests w) + k) url) = true →
  json (remote (length (requests w) + k) url) = Some body →
  value body = Some batch →
  odata_nextLink body = None →
  (k < fuel)%nat →
  get_json remote fuel (VStr url) w = Ok batch (requested url (throttled k url 0 w))
  ∧ requests (requested url (throttled k url 0 w)) = requests w ++ replicate (S k) url
  ∧ slept (requested url (throttled k url 0 w)) = slept w ++ replicate k 300%Z.
Proof.
  intros Hne H429 Hs Hj Hv Hl Hk.
  assert (length (requests (throttled k url 0 w)) = (length (requests w) + k)%nat) as Hlen.
  { simpl. by rewrite length_app, length_replicate. }
  split; [|split].
  - unfold get_json. destruct fuel as [|f] eqn:Ef; [lia|]. rewrite <- Ef at 1.
    cbn [get_json_loop]. unfold truthy. rewrite (string_eqb_empty _ Hne). simpl negb. cbv iota.
    assert (get remote fuel (VStr url) 0 w
            = Ok (Some (remote (length (requests w) + k) url))
                 (requested url (throttled k url 0 w))) as Hg.
    { unfold get. replace fuel with (k + S (fuel - S k))%nat by lia.
      rewrite get_loop_throttled by done.
      pose proof (get_success remote (S (fuel - S k)) url 0 (throttled k url 0 w)) as Hg.
      unfold get in Hg. rewrite Hlen in Hg. apply Hg; [lia|done]. }
    cbn [negb]. rewrite (bind_ok _ _ _ _ _ Hg). cbv beta iota. rewrite Hj, Hv, Hl. simpl.
    by destruct f.
  - simpl. rewrite <- app_assoc. f_equal.
    clear. induction k; [done|]. simpl. by f_equal.
  - done.
Qed.

Lemma get_json_waits_for_throttled_list_witness :
  get_json Looping.throttled_list 3 (VStr "nb/Work/sections") Demo.start
  = Ok [Demo.section "Plans"; Demo.section "Notes"]
       (requested "nb/Work/sections" (throttled 2 "nb/Work/sections" 0 Demo.start))
  ∧ slept (requested "nb/Work/sections" (throttled 2 "nb/Work/sections" 0 Demo.start))
    = [300%Z; 300%Z].
Proof.
  destruct (get_json_waits_for_throttled_list Looping.throttled_list 3 "nb/Work/sections"
              Demo.start 2
              {| value := Some [Demo.section "Plans"; Demo.section "Notes"];
                 odata_nextLink := None |}
              [Demo.section "Plans"; Demo.section "Notes"]) as (H1 & _ & H3).
  - done.
  - intros i Hi. destruct i as [|[|i]]; [reflexivity|reflexivity|lia].
  - reflexivity.
  - reflexivity.
  - reflexivity.
  - reflexivity.
  - lia.
  - split; [exact H1|exact H3].
Defined.

(** ** More on the selection filter *)

Lemma matching_nameless ext items segment it :
  it ∈ items → (∀ s, item_name it ≠ VStr s) →
  matching ext items segment = inl AttributeError.
Proof.
  intros Hin Hn. induction items as [|a items IH]; [by apply elem_of_nil in Hin|].
  simpl. apply elem_of_cons in Hin as [<-|Hin].
  - destruct (item_name it) as [| |s] eqn:E; [done..|]. by destruct (Hn s).
  - destruct (val_lower ext (item_name a)) as [e|name] eqn:E.
    + destruct (item_name a); simpl in E; by simplify_eq.
    + by rewrite (IH Hin).
Qed.

(** X5. An item with neither a string [displayName] nor, failing a
    [displayName], a string [title] makes the filter raise an
    [AttributeError] as soon as there is a segment to match, whatever the
    other items are; with no segment left the items are not looked at. *)
Theorem filter_items_nameless (ext : Externals) (items : list item) (it : item)
    (segment : string) (rest : list string) (name : string) (indent : nat) (w : World) :
  it ∈ items →
  (∀ s, item_name it ≠ VStr s) →
  filter_items ext items (segment :: rest) name indent w = Raise AttributeError w
  ∧ filter_items ext items [] name indent w = Ok (items, []) w.
Proof.
  intros Hin Hn. split; [|done].
  unfold filter_items. by rewrite (matching_nameless _ _ _ _ Hin Hn).
Qed.

Lemma filter_items_nameless_witness :
  filter_items Demo.ext [Demo.section "Work"; Orphans.nameless] ["w*"] "sections" 0 Demo.start
  = Raise AttributeError Demo.start
  ∧ filter_items Demo.ext [Demo.section "Work"; Orphans.nameless] [] "sections" 0 Demo.start
    = Ok ([Demo.section "Work"; Orphans.nameless], []) Demo.start.
Proof.
  apply (filter_items_nameless Demo.ext [Demo.section "Work"; Orphans.nameless]
           Orphans.nameless "w*" [] "sections" 0 Demo.start).
  - apply elem_of_cons. right. apply elem_of_cons. by left.
  - intros s. vm_compute. discriminate.
Defined.

Lemma matching_sublist ext items segment kept :
  matching ext items segment = inr kept → sublist kept items.
Proof.
  revert kept. induction items as [|a items IH]; intros kept; simpl.
  - intros [= <-]. constructor.
  - destruct (val_lower ext (item_name a)) as [|name]; [done|].
    destruct (matching ext items segment) as [|kept']; [done|].
    destruct (fnmatch ext name (str_lower ext segment)); intros [= <-].
    + apply sublist_skip. by apply IH.
    + apply sublist_cons. by apply IH.
Qed.

(** X6. Whatever the filter returns is taken from the collection it was
    given, in the same order, nothing added and nothing repeated; it consumes
    one segment, and it neither fetches nor writes. *)
Theorem filter_items_sublist (ext : Externals) (items : list item) (sel : list string)
    (name : string) (indent : nat) (w : World) (items' : list item) (sel' : list string)
    (w' : World) :
  filter_items ext items sel name indent w = Ok (items', sel') w' →
  sublist items' items
  ∧ sel' = tail sel
  ∧ fs w' = fs w
  ∧ requests w' = requests w.
Proof.
  unfold filter_items. destruct sel as [|segment rest].
  - intros [= <- <- <-]. done.
  - destruct (matching ext items segment) as [|kept] eqn:E; [done|]. simpl.
    unfold mbind, M_bind, mret, M_ret. simpl.
    destruct (decide (kept = [])); simpl; intros [= <- <- <-];
      (split; [by eapply matching_sublist|done]).
Qed.

Lemma filter_items_sublist_witness :
  sublist [Demo.section "Work"] [Demo.section "Home"; Demo.section "Work"; Demo.section "Car"]
  ∧ [] = tail ["w*"]
  ∧ fs Demo.start = fs Demo.start
  ∧ requests Demo.start = requests Demo.start.
Proof.
  apply (filter_items_sublist Demo.ext
           [Demo.section "Home"; Demo.section "Work"; Demo.section "Car"] ["w*"] "sections" 0
           Demo.start [Demo.section "Work"] [] Demo.start).
  vm_compute. reflexivity.
Defined.

(** X7. A segment that matches no item is not an error: the walker prints
    that nothing was found and returns, having fetched and written
    nothing. *)
Theorem empty_selection_returns (ext : Externals) (remote : Remote) (fuel : nat)
    (items : list item) (segment : string) (rest : list string) (path : Path)
    (indent : nat) (w : World) :
  Forall named items →
  selected ext (segment :: rest) items = [] →
  let said name :=
    printed (repeat_str indent "  " +:+ "No " +:+ name +:+ " found matching " +:+ segment) w in
  download_section_groups ext remote fuel items path (segment :: rest) indent w
  = Ok tt (said "section groups")
  ∧ download_sections ext remote fuel items path (segment :: rest) indent w
    = Ok tt (said "sections")
  ∧ download_pages ext remote fuel items path (segment :: rest) indent w
    = Ok tt (said "pages").
Proof.
  intros Hn He said.
  assert (∀ name, filter_items ext items (segment :: rest) name indent w
                  = Ok ([], rest) (said name)) as Hf.
  { intros name. rewrite (filter_items_run _ _ _ _ _ _ Hn). unfold after_filter.
    rewrite He. by rewrite decide_True. }
  split; [|split].
  - unfold download_section_groups. by rewrite (bind_ok _ _ _ _ _ (Hf _)).
  - unfold download_sections. by rewrite (bind_ok _ _ _ _ _ (Hf _)).
  - unfold download_pages. by rewrite (bind_ok _ _ _ _ _ (Hf _)).
Qed.

Lemma empty_selection_returns_witness :
  download_sections Demo.ext Selection.remote 2 [Demo.section "Plans"] ["out"]
    ["diary"; "*"] 1 Demo.start
  = Ok tt (printed "  No sections found matching diary" Demo.start).
Proof.
  destruct (empty_selection_returns Demo.ext Selection.remote 2 [Demo.section "Plans"]
              "diary" ["*"] ["out"] 1 Demo.start) as (_ & H & _).
  - repeat constructor. apply demo_section_named.
  - reflexivity.
  - exact H.
Defined.

(** ** More on the walk over the pages *)

(** The sort of integer, pairwise distinct orders: one strictly ordered
    permutation. *)
Lemma sorted_pages pages :
  Forall (λ p, ∃ o, p !! "order" = Some (VInt o)) pages →
  NoDup (page_order <$> pages) →
  ∃ ordered,
    ordered ≡ₚ pages
    ∧ StronglySorted (λ p q, (page_order p < page_order q)%Z) ordered
    ∧ keyed pages ≫= sorted = inr (entry_of <$> ordered).
Proof.
  intros Ho Hn.
  destruct (sorted_tie_free (entry_of <$> pages)) as (r & Hr & Hp & Hs).
  { by apply entries_int_keyed. }
  { by apply entries_tie_free. }
  destruct (entries_perm _ _ Hp) as [Er Hp2].
  remember (r.*2) as ordered eqn:E. clear E. subst r.
  exists ordered. split; [done|]. split.
  - apply sorted_strict; [done|]. by rewrite Hp2.
  - rewrite (keyed_entries _ Ho). unfold mbind, exn_bind. by rewrite Hr.
Qed.

Lemma strictly_sorted_unique (l1 l2 : list item) :
  StronglySorted (λ p q, (page_order p < page_order q)%Z) l1 →
  StronglySorted (λ p q, (page_order p < page_order q)%Z) l2 →
  l1 ≡ₚ l2 → l1 = l2.
Proof.
  assert (AntiSymm (=) (λ p q : item, (page_order p < page_order q)%Z)) as Ha.
  { intros p q ??. lia. }
  intros H1 H2 Hp. by eapply (StronglySorted_unique _ l1 l2).
Qed.

(** X8. The order in which a section lists its pages does not matter:
    with integer, pairwise distinct orders, two listings of the same pages
    are walked in exactly the same way. *)
Theorem download_pages_any_listing (ext : Externals) (remote : Remote) (fuel : nat)
    (pages pages' : list item) (path : Path) (indent : nat) (w : World) :
  Forall (λ p, ∃ o, p !! "order" = Some (VInt o)) pages →
  NoDup (page_order <$> pages) →
  pages ≡ₚ pages' →
  download_pages ext remote fuel pages path [] indent w
  = download_pages ext remote fuel pages' path [] indent w.
Proof.
  intros Ho Hn Hp.
  destruct (sorted_pages pages Ho Hn) as (o1 & P1 & S1 & E1).
  destruct (sorted_pages pages') as (o2 & P2 & S2 & E2).
  { by rewrite <- Hp. }
  { by rewrite <- Hp. }
  rewrite !download_pages_unselected, E1, E2.
  rewrite (strictly_sorted_unique o1 o2); [done|done|done|].
  by rewrite P1, P2.
Qed.

Lemma download_pages_any_listing_witness :
  download_pages Demo.ext Demo.outline_remote 1 Demo.outline_pages ["out"] [] 0 Demo.start
  = download_pages Demo.ext Demo.outline_remote 1 (reverse Demo.outline_pages) ["out"] [] 0
      Demo.start.
Proof.
  apply download_pages_any_listing.
  - repeat constructor; by eexists.
  - apply (bool_decide_unpack _). vm_compute. reflexivity.
  - symmetry. apply reverse_Permutation.
Defined.

(** X9. A page whose level is none of 0, 1 and 2 sets no directory.  In a
    section that has only such pages the first one in order finds
    [page_dir] unbound: the walk raises an [UnboundLocalError], and nothing
    is fetched or written. *)
Theorem unknown_levels_raise (ext : Externals) (remote : Remote) (fuel : nat)
    (pages : list item) (path : Path) (indent : nat) (w : World) :
  pages ≠ [] →
  Forall unplaced pages →
  NoDup (page_order <$> pages) →
  ∃ w', download_pages ext remote fuel pages path [] indent w = Raise UnboundLocalError w'
        ∧ fs w' = fs w
        ∧ requests w' = requests w.
Proof.
  intros Hne Hu Hn.
  destruct (sorted_pages pages) as (ordered & Hp & _ & E); [|done|].
  { eapply Forall_impl; [exact Hu|]. by intros p (? & _). }
  rewrite download_pages_unselected, E.
  destruct ordered as [|page ordered].
  { apply Permutation_nil_l in Hp. by subst. }
  assert (unplaced page) as ((o & Ho) & (l & Hl & N0 & N1 & N2) & (t & Ht) & (u & Hu')).
  { rewrite Forall_forall in Hu. apply Hu. rewrite <- Hp. by left. }
  rewrite fmap_cons. unfold entry_of at 1. cbn [pages_loop].
  unfold getitem. rewrite Hl, Ht, Hu'.
  unfold mbind, M_bind, mret, M_ret, indent_print, print. simpl.
  rewrite !decide_False by done. simpl.
  by eexists.
Qed.

Lemma unknown_levels_raise_witness :
  ∃ w', download_pages Demo.ext Demo.outline_remote 1 Orphans.deep ["out"] [] 0 Demo.start
        = Raise UnboundLocalError w'
        ∧ fs w' = fs Demo.start
        ∧ requests w' = requests Demo.start.
Proof.
  apply unknown_levels_raise.
  - done.
  - repeat constructor; repeat split; try (by eexists);
      eexists; (split; [reflexivity|done]).
  - apply (bool_decide_unpack _). vm_compute. reflexivity.
Defined.

Lemma join_empty (p : Path) : p </> "" = p.
Proof. unfold join. simpl. by rewrite app_nil_r. Qed.

Lemma outline_orphans ext remote fuel pages base anchor2 indent w :
  Forall (λ p, page_level p = 1%Z) pages →
  outline ext remote fuel pages base "" anchor2 indent w
  = for_each pages (materialize_in ext remote fuel base indent) w.
Proof.
  intros H. revert anchor2 w. induction H as [|page pages Hl _ IH]; intros anchor2 w; [done|].
  cbn [outline for_each]. unfold materialize_in.
  rewrite Hl. rewrite decide_False by done. rewrite decide_True by done.
  rewrite join_empty.
  unfold mbind at 1 2 3 4 5, M_bind.
  destruct (indent_print _ _ w) as [[] w1| |]; [|done..].
  destruct (download_page _ _ _ _ _ _ _ w1) as [[] w2| |]; [|done..].
  apply IH.
Qed.

(** X10. The anchors start empty.  In a section whose pages are all of
    level 1, with no level-0 page to hang them on, every page is written
    straight into the section directory, in order. *)
Theorem orphan_pages_in_section_directory (ext : Externals) (remote : Remote) (fuel : nat)
    (pages : list item) (base : Path) (indent : nat) (w : World) :
  Forall is_page pages →
  Forall (λ p, page_level p = 1%Z) pages →
  NoDup (page_order <$> pages) →
  ∃ ordered,
    ordered ≡ₚ pages
    ∧ StronglySorted (λ p q, (page_order p < page_order q)%Z) ordered
    ∧ download_pages ext remote fuel pages base [] indent w
      = for_each ordered (materialize_in ext remote fuel base indent) w.
Proof.
  intros Hpages Hl Hn.
  destruct (sorted_pages pages (is_page_ordered _ Hpages) Hn) as (ordered & Hp & Hs & E).
  exists ordered. split; [done|]. split; [done|].
  rewrite download_pages_unselected, E.
  rewrite pages_loop_outline by (by rewrite Hp). simpl.
  apply outline_orphans. by rewrite Hp.
Qed.

Lemma orphan_pages_in_section_directory_witness :
  ∃ ordered,
    ordered ≡ₚ Orphans.pages
    ∧ StronglySorted (λ p q, (page_order p < page_order q)%Z) ordered
    ∧ download_pages Demo.ext Demo.outline_remote 1 Orphans.pages ["out"] [] 0 Demo.start
      = for_each ordered (materialize_in Demo.ext Demo.outline_remote 1 ["out"] 0) Demo.start.
Proof.
  apply orphan_pages_in_section_directory.
  - repeat constructor; apply demo_page_is_page; lia.
  - repeat constructor.
  - apply (bool_decide_unpack _). vm_compute. reflexivity.
Defined.

Lemma keyed_unordered pages page :
  page ∈ pages → page !! "order" = None → keyed pages = inl KeyError.
Proof.
  intros Hin Hn. induction pages as [|a pages IH]; [by apply elem_of_nil in Hin|].
  simpl. apply elem_of_cons in Hin as [<-|Hin]; [by rewrite Hn|].
  destruct (a !! "order"); [|done]. by rewrite (IH Hin).
Qed.

(** X11. One page record without [order] stops the whole section: the
    list to sort cannot be built, the walk raises a [KeyError], and no page
    of the section is fetched or written, the well-formed ones included. *)
Theorem page_without_order_raises (ext : Externals) (remote : Remote) (fuel : nat)
    (pages : list item) (page : item) (path : Path) (indent : nat) (w : World) :
  page ∈ pages →
  page !! "order" = None →
  download_pages ext remote fuel pages path [] indent w = Raise KeyError w.
Proof.
  intros Hin Hn. rewrite download_pages_unselected.
  by rewrite (keyed_unordered _ _ Hin Hn).
Qed.

Lemma page_without_order_raises_witness :
  download_pages Demo.ext Demo.outline_remote 1
    (Demo.outline_pages ++ [Orphans.unordered]) ["out"] [] 0 Demo.start
  = Raise KeyError Demo.start.
Proof.
  apply (page_without_order_raises Demo.ext Demo.outline_remote 1 _ Orphans.unordered).
  - apply elem_of_app. right. by left.
  - reflexivity.
Defined.

(** X19. The sort of line 214 on entries with integer orders succeeds
    exactly when no two entries have the same order and different page
    records, and then gives the entries in ascending order: records that
    are repeated word for word are sorted like any others. *)
Theorem sorted_succeeds_iff (l : list (val * item)) :
  int_keyed l →
  (∃ r, sorted l = inr r ∧ r ≡ₚ l ∧ StronglySorted key_le r) ↔ tie_free l.
Proof.
  intros Hl. split.
  - intros (r & Hr & _).
    apply (sorted_onto_inr [] l r); [constructor|done|constructor| |done].
    intros ?? []%elem_of_nil.
  - by apply sorted_tie_free.
Qed.

Lemma sorted_succeeds_iff_witness :
  let twice := [entry_of (Demo.page 2 0 "B"); entry_of (Demo.page 1 0 "A");
                entry_of (Demo.page 2 0 "B")] in
  (∃ r, sorted twice = inr r ∧ r ≡ₚ twice ∧ StronglySorted key_le r) ↔ tie_free twice.
Proof.
  apply sorted_succeeds_iff. repeat constructor; by eexists.
Defined.

(** The same page listed twice is exported like a single one. *)
Example repeated_page_example :
  Demo.files (fs (Demo.world_of
    (download_pages Demo.ext Demo.outline_remote 1
       [Demo.page 1 0 "Root"; Demo.page 1 0 "Root"] ["out"] [] 0 Demo.start)))
  = ["out/Root.html"].
Proof. vm_compute. reflexivity. Qed.

(** ** More on the attachment resolver *)

Lemma props_get_set d k v k' :
  props_get (props_set d k v) k' = if String.eqb k k' then Some v else props_get d k'.
Proof.
  induction d as [|[a b] d IH]; simpl.
  - by destruct (String.eqb k k').
  - destruct (String.eqb_spec a k) as [->|Hne]; simpl.
    + by destruct (String.eqb k k').
    + rewrite IH. destruct (String.eqb_spec a k') as [->|]; [|done].
      destruct (String.eqb_spec k k') as [->|]; done.
Qed.

Lemma props_set_keys d k v :
  (props_set d k v).*1 = if bool_decide (k ∈ d.*1) then d.*1 else d.*1 ++ [k].
Proof.
  induction d as [|[a b] d IH]; [done|]. cbn [props_set].
  destruct (String.eqb_spec a k) as [->|Hne]; rewrite !fmap_cons; cbn [fst].
  - rewrite bool_decide_eq_true_2; [done|]. by left.
  - rewrite IH. destruct (bool_decide (k ∈ d.*1)) eqn:E.
    + rewrite bool_decide_eq_true_2; [done|]. right. by apply bool_decide_eq_true_1 in E.
    + rewrite bool_decide_eq_false_2; [done|].
      apply bool_decide_eq_false_1 in E. intros [->|?]%elem_of_cons; done.
Qed.

Lemma props_set_NoDup d k v : NoDup d.*1 → NoDup (props_set d k v).*1.
Proof.
  intros H. rewrite props_set_keys. destruct (bool_decide (k ∈ d.*1)) eqn:E; [done|].
  apply bool_decide_eq_false_1 in E.
  apply NoDup_app. split; [done|]. split; [|apply NoDup_singleton].
  intros x Hx ->%list_elem_of_singleton. done.
Qed.

Lemma props_get_app d1 d2 k :
  props_get (d1 ++ d2) k = match props_get d1 k with Some v => Some v | None => props_get d2 k end.
Proof.
  induction d1 as [|[a b] d1 IH]; [done|]. simpl. by destruct (String.eqb a k).
Qed.

Lemma props_fold attrs d k :
  props_get (fold_left (λ d kv, props_set d kv.1 kv.2) attrs d) k
  = match props_get (reverse attrs) k with Some v => Some v | None => props_get d k end
  ∧ (NoDup d.*1 → NoDup (fold_left (λ d kv, props_set d kv.1 kv.2) attrs d).*1).
Proof.
  revert d. induction attrs as [|[a b] attrs IH]; intros d; [done|].
  simpl. destruct (IH (props_set d a b)) as [Hg Hn]. split.
  - rewrite Hg, reverse_cons, props_get_app, props_get_set. simpl.
    destruct (props_get (reverse attrs) k); [done|]. by destruct (String.eqb a k).
  - intros H. apply Hn. by apply props_set_NoDup.
Qed.

(** X12. The attribute dictionary of a tag has one entry for each
    attribute name, and for a name that the tag repeats the value written
    last is the one that counts. *)
Theorem props_of_last_wins (attrs : list (string * option string)) (k : string) :
  NoDup (props_of attrs).*1
  ∧ props_get (props_of attrs) k = props_get (reverse attrs) k.
Proof.
  unfold props_of. destruct (props_fold attrs [] k) as [Hg Hn]. split.
  - apply Hn. constructor.
  - rewrite Hg. by destruct (props_get (reverse attrs) k).
Qed.

Lemma props_get_filter (P : string → bool) (d : props) k :
  P k = true → props_get (List.filter (λ kv, P kv.1) d) k = props_get d k.
Proof.
  intros Hk. induction d as [|[a b] d IH]; [done|]. simpl.
  destruct (P a) eqn:E; simpl.
  - by rewrite IH.
  - destruct (String.eqb_spec a k) as [->|]; [congruence|done].
Qed.

Lemma Forall_filter_true {A} (P : A → bool) (l : list A) :
  Forall (λ x, P x = true) (List.filter P l).
Proof.
  induction l as [|a l IH]; [constructor|]. simpl.
  destruct (P a) eqn:E; [by constructor|done].
Qed.

Lemma generate_html_raises ext tag (p : props) :
  generate_html ext tag p = inl TypeError ↔ ∃ k, (k, None) ∈ p.
Proof.
  unfold generate_html, attrib.
  destruct (mapM _ p) as [a|] eqn:E.
  - split; [done|]. intros [k Hk]. exfalso.
    assert (mapM (λ kv : string * option string, option_map (pair kv.1) kv.2) p = None)
      as Hn; [|congruence].
    apply mapM_None, Exists_exists. by exists (k, None).
  - split; [|done]. intros _.
    apply mapM_None, Exists_exists in E as ([k [v|]] & Hin & Hv); [done|].
    by exists k.
Qed.

(** X13. An image that is already in the attachment directory: the tag
    that comes back is built from the attributes of the original tag with
    [src] pointing at the local file, without any attribute whose name has
    [data-fullres-src] in it, and with every other attribute as it was.
    When one of the attributes that stay has no value the call raises a
    [TypeError] instead, still without a request. *)
Theorem local_image_tag (ext : Externals) (remote : Remote) (fuel : nat) (out_dir : Path)
    (page_title : string) (indent : nat) (tag : string)
    (attrs : list (string * option string)) (d : derived) (w : World) :
  tag_attrs ext tag = Some attrs →
  derive ext page_title Image tag = Some d →
  exists_ (fs w) (local_file out_dir page_title d) = true →
  ∃ p w',
    download_image ext remote fuel out_dir page_title indent tag w
    = ends_with (generate_html ext "img" p) w'
    ∧ requests w' = requests w
    ∧ props_get p "src" = Some (Some (dir_name page_title +:+ "/" +:+ file_name d))
    ∧ Forall (λ kv, contains "data-fullres-src" kv.1 = false) p
    ∧ (∀ k, k ≠ "src" → contains "data-fullres-src" k = false →
            props_get p k = props_get (props_of attrs) k)
    ∧ ((∃ k, (k, None) ∈ p) → generate_html ext "img" p = inl TypeError)
    ∧ (∀ a, attrib p = Some a → generate_html ext "img" p = inr (tostring ext "img" a)).
Proof.
  intros Ht Hd He.
  destruct (resolve_present ext remote fuel out_dir page_title indent Image tag d w Hd He)
    as (w' & Hr & _ & Hq & _).
  unfold derive in Hd. rewrite Ht in Hd. cbn [mbind option_bind] in Hd.
  destruct (props_get (props_of attrs) "src") as [src|]; [|done].
  cbn [mbind option_bind] in Hd.
  destruct (props_get (props_of attrs) "data-src-type") as [st|]; [|done].
  cbn [mbind option_bind] in Hd.
  destruct (default st _) as [type|]; [|done]. cbn [mbind option_bind] in Hd.
  destruct (default src _) as [url|]; [|done]. cbn [mbind option_bind] in Hd.
  injection Hd as <-. cbn [local_tag file_name] in *.
  eexists _, w'. split; [exact Hr|]. split; [done|]. repeat apply conj.
  - rewrite (props_get_filter (λ k, negb (contains "data-fullres-src" k))) by done.
    by rewrite props_get_set.
  - eapply Forall_impl; [apply (Forall_filter_true (λ kv, negb (contains _ kv.1)))|].
    intros kv H. by apply negb_true_iff in H.
  - intros k Hk Hc.
    rewrite (props_get_filter (λ k, negb (contains "data-fullres-src" k)))
      by (by rewrite Hc).
    rewrite props_get_set. destruct (String.eqb_spec "src" k); [congruence|done].
  - apply generate_html_raises.
  - intros a Ha. unfold generate_html. by rewrite Ha.
Qed.

Lemma local_image_tag_witness :
  ∃ p w',
    download_image Demo.ext Attachments.online 1 ["out"] "Page" 0 Tags.both Tags.with_image
    = ends_with (generate_html Demo.ext "img" p) w'
    ∧ requests w' = requests Tags.with_image
    ∧ props_get p "src" = Some (Some "Page.FILES/img9.jpeg")
    ∧ Forall (λ kv, contains "data-fullres-src" kv.1 = false) p
    ∧ (∀ k, k ≠ "src" → contains "data-fullres-src" k = false →
            props_get p k
            = props_get (props_of [("width", Some "8"); ("src", Some "img7");
                                   ("data-src-type", Some "image/png");
                                   ("data-fullres-src", Some "img9");
                                   ("data-fullres-src-type", Some "image/jpeg")]) k)
    ∧ ((∃ k, (k, None) ∈ p) → generate_html Demo.ext "img" p = inl TypeError)
    ∧ (∀ a, attrib p = Some a → generate_html Demo.ext "img" p = inr (tostring Demo.ext "img" a)).
Proof.
  apply (local_image_tag Demo.ext Attachments.online 1 ["out"] "Page" 0 Tags.both _
           Tags.both_derived Tags.with_image); reflexivity.
Defined.

(** An image that is on disk and whose tag has an attribute without a
    value: a [TypeError], and nothing requested. *)
Example valueless_attribute_example :
  download_image Demo.ext Attachments.online 1 ["out"] "Page" 0 Tags.hidden Tags.with_hidden
  = Raise TypeError
      {| fs := fs Tags.with_hidden; requests := []; slept := [];
         stdout := ["Image img7.png already downloaded; skipping."] |}.
Proof. vm_compute. reflexivity. Qed.

Lemma elem_of_props_set (p : props) k v k' v' :
  k' ≠ k → (k', v') ∈ p → (k', v') ∈ props_set p k v.
Proof.
  intros Hk. induction p as [|[a b] p IH]; [by intros ?%elem_of_nil|].
  cbn [props_set]. intros [[= <- <-]|Hin]%elem_of_cons.
  - destruct (String.eqb_spec k' k); [done|]. by left.
  - destruct (String.eqb_spec a k); right; [done|by apply IH].
Qed.

Lemma local_tag_raises ext page_title kind tag attrs d k :
  tag_attrs ext tag = Some attrs →
  derive ext page_title kind tag = Some d →
  (k, None) ∈ props_of attrs →
  k ≠ "src" → k ≠ "data" → contains "data-fullres-src" k = false →
  local_tag d = inl TypeError.
Proof.
  intros Ht Hd Hin Hs Hda Hc. unfold derive in Hd. rewrite Ht in Hd.
  cbn [mbind option_bind] in Hd. destruct kind.
  - destruct (props_get (props_of attrs) "src") as [src|]; [|done].
    cbn [mbind option_bind] in Hd.
    destruct (props_get (props_of attrs) "data-src-type") as [st|]; [|done].
    cbn [mbind option_bind] in Hd.
    destruct (default st _) as [type|]; [|done]. cbn [mbind option_bind] in Hd.
    destruct (default src _) as [url|]; [|done]. cbn [mbind option_bind] in Hd.
    injection Hd as <-. cbn [local_tag].
    apply generate_html_raises. exists k.
    apply list_elem_of_In, filter_In. split.
    + apply list_elem_of_In. by apply elem_of_props_set.
    + cbn [fst]. by rewrite Hc.
  - destruct (mjoin (props_get (props_of attrs) "data")) as [url|]; [|done].
    cbn [mbind option_bind] in Hd.
    destruct (mjoin (props_get (props_of attrs) "data-attachment")) as [name|]; [|done].
    cbn [mbind option_bind] in Hd.
    injection Hd as <-. cbn [local_tag].
    apply generate_html_raises. exists k. by apply elem_of_props_set.
Qed.

(** X20. A reference whose tag has an attribute without a value, other
    than the ones the resolver replaces or drops, cannot be written back:
    the callback raises a [TypeError].  It does so after the work is done:
    with the file on disk, after the line that says so and without a
    request; with the file missing, after the binary has been fetched and
    written. *)
Theorem valueless_attribute_raises (ext : Externals) (remote : Remote) (fuel : nat)
    (out_dir : Path) (page_title : string) (indent : nat) (kind : reference)
    (tag : string) (attrs : list (string * option string)) (d : derived) (k : string)
    (w : World) :
  tag_attrs ext tag = Some attrs →
  derive ext page_title kind tag = Some d →
  (k, None) ∈ props_of attrs →
  k ≠ "src" → k ≠ "data" → contains "data-fullres-src" k = false →
  (exists_ (fs w) (local_file out_dir page_title d) = true →
   ∃ w', resolve ext remote fuel out_dir page_title indent kind tag w = Raise TypeError w'
         ∧ fs w' = fs w ∧ requests w' = requests w)
  ∧ (∀ resp wg t1 t2,
       exists_ (fs w) (local_file out_dir page_title d) = false →
       get remote fuel (VStr (source_url d)) indent w = Ok (Some resp) wg →
       mkdir_exist_ok (fs w) (attachment_dir out_dir page_title) = inr t1 →
       write_file t1 (local_file out_dir page_title d) (text resp) = inr t2 →
       ∃ w1, resolve ext remote fuel out_dir page_title indent kind tag w
             = Raise TypeError w1
             ∧ fs w1 = t2 ∧ requests w1 = requests wg).
Proof.
  intros Ht Hd Hin Hs Hda Hc.
  pose proof (local_tag_raises _ _ _ _ _ _ _ Ht Hd Hin Hs Hda Hc) as Hl. split.
  - intros He.
    destruct (resolve_present ext remote fuel out_dir page_title indent kind tag d w Hd He)
      as (w' & Hr & Hf & Hq & _).
    rewrite Hl in Hr. by exists w'.
  - intros resp wg t1 t2 He Hg Hm Hw.
    destruct (resolve_fetched ext remote fuel out_dir page_title indent kind tag d w
                resp wg t1 t2 Hd He Hg Hm Hw) as (w1 & Hr & Hf & Hq).
    rewrite Hl in Hr. by exists w1.
Qed.

Lemma valueless_attribute_raises_witness :
  (∃ w', download_image Demo.ext Attachments.online 1 ["out"] "Page" 0 Tags.hidden
           Tags.with_hidden
         = Raise TypeError w'
         ∧ fs w' = fs Tags.with_hidden ∧ requests w' = [])
  ∧ (∃ w1, download_image Demo.ext Attachments.online 1 ["out"] "Page" 0 Tags.hidden
             Attachments.empty_dir
           = Raise TypeError w1
           ∧ fs w1 = fs Tags.with_hidden ∧ requests w1 = ["img7"]).
Proof.
  split.
  - destruct (valueless_attribute_raises Demo.ext Attachments.online 1 ["out"] "Page" 0 Image
                Tags.hidden
                [("hidden", None); ("src", Some "img7"); ("data-src-type", Some "image/png")]
                Tags.hidden_derived "hidden" Tags.with_hidden) as [H _];
      [reflexivity | reflexivity | by left | done | done | reflexivity |].
    apply H. reflexivity.
  - destruct (valueless_attribute_raises Demo.ext Attachments.online 1 ["out"] "Page" 0 Image
                Tags.hidden
                [("hidden", None); ("src", Some "img7"); ("data-src-type", Some "image/png")]
                Tags.hidden_derived "hidden" Attachments.empty_dir) as [_ H];
      [reflexivity | reflexivity | by left | done | done | reflexivity |].
    apply (H (Demo.body_of "PNG")
             {| fs := fs Attachments.empty_dir; requests := ["img7"]; slept := [];
                stdout := [] |}
             {[ ["out"] := Dir; ["out"; "Page.FILES"] := Dir ]}
             (fs Tags.with_hidden));
      vm_compute; reflexivity.
Defined.

(** X14. An image tag must have [src] and [data-src-type] even when it
    carries a full-resolution source and type: the two are read before the
    full-resolution ones are preferred, and a tag without one of them raises
    a [KeyError] before anything is fetched or looked up on disk. *)
Theorem image_needs_src (ext : Externals) (remote : Remote) (fuel : nat) (out_dir : Path)
    (page_title : string) (indent : nat) (tag : string)
    (attrs : list (string * option string)) (w : World) :
  tag_attrs ext tag = Some attrs →
  props_get (props_of attrs) "src" = None
  ∨ props_get (props_of attrs) "data-src-type" = None →
  download_image ext remote fuel out_dir page_title indent tag w = Raise KeyError w.
Proof.
  intros Ht H. unfold download_image, parse_props, props_item. rewrite Ht.
  unfold mbind at 1, M_bind at 1, mret, M_ret.
  destruct (props_get (props_of attrs) "src") as [src|] eqn:E; [|done].
  destruct H as [|H]; [done|].
  unfold mbind at 1 2, M_bind. by rewrite H.
Qed.

Lemma image_needs_src_witness :
  download_image Demo.ext Attachments.online 1 ["out"] "Page" 0 Tags.no_src
    Attachments.empty_dir
  = Raise KeyError Attachments.empty_dir.
Proof.
  eapply (image_needs_src Demo.ext Attachments.online 1 ["out"] "Page" 0 Tags.no_src).
  - reflexivity.
  - left. reflexivity.
Defined.

(** X15. A page that has no image tag and no object tag goes through the
    resolver as it is: nothing is requested, no attachment directory is
    made, and the text comes back unchanged. *)
Theorem page_without_media_untouched (ext : Externals) (remote : Remote) (fuel : nat)
    (out_dir : Path) (page_title : string) (indent : nat) (content : string) (w : World) :
  occurs "<img " content = false →
  occurs "<object " content = false →
  download_attachments ext remote fuel out_dir page_title indent content w = Ok content w.
Proof.
  intros Hi Ho. unfold download_attachments.
  rewrite (bind_ok _ _ _ content w) by (apply sub_tags_absent; [done|lia]).
  rewrite (bind_ok _ _ _ content w) by (apply sub_tags_absent; [done|lia]).
  unfold mret, M_ret. by rewrite close_objects_absent.
Qed.

Lemma page_without_media_untouched_witness :
  download_attachments Demo.ext Attachments.offline 1 ["out"] "Page" 0
    "<html><body><p>no media, an <image> away</p></body></html>" Attachments.empty_dir
  = Ok "<html><body><p>no media, an <image> away</p></body></html>" Attachments.empty_dir.
Proof. apply page_without_media_untouched; reflexivity. Defined.

(** ** What an export leaves of the tree it finds *)

Lemma survives_ret {A} (a : A) : survives (mret a : M A).
Proof. intros w. apply keeps_refl. Qed.

Lemma survives_raise {A} e : survives (raise e : M A).
Proof. intros w. apply keeps_refl. Qed.

Lemma survives_timeout {A} : survives (timeout : M A).
Proof. by intros w. Qed.

Lemma survives_lift {A} (r : exn + A) : survives (lift r).
Proof. destruct r; [apply survives_raise|apply survives_ret]. Qed.

Lemma survives_bind {A B} (m : M A) (f : A → M B) :
  survives m → (∀ a, survives (f a)) → survives (m ≫= f).
Proof.
  intros Hm Hf w. specialize (Hm w). unfold mbind, M_bind.
  destruct (m w) as [a w1|e w1|]; [|done..].
  specialize (Hf a w1). destruct (f a w1) as [b w2|e w2|]; [| |done];
    by eapply keeps_trans.
Qed.

Lemma survives_print line : survives (print line).
Proof. intros w. apply keeps_refl. Qed.

Lemma survives_sleep s : survives (sleep s).
Proof. intros w. apply keeps_refl. Qed.

Lemma survives_path_exists p : survives (path_exists p).
Proof. intros w. apply keeps_refl. Qed.

Lemma survives_client_get remote url : survives (client_get remote url).
Proof. intros w. apply keeps_refl. Qed.

Lemma survives_on_fs op :
  (∀ t t', op t = inr t' → keeps t t') → survives (on_fs op).
Proof.
  intros H w. unfold on_fs. destruct (op (fs w)) as [e|t'] eqn:E.
  - apply keeps_refl.
  - by apply H.
Qed.

Lemma survives_props_item p k : survives (props_item p k).
Proof. unfold props_item. destruct (props_get p k); [apply survives_ret|apply survives_raise]. Qed.

Lemma survives_getitem d k : survives (getitem d k).
Proof. unfold getitem. destruct (d !! k); [apply survives_ret|apply survives_raise]. Qed.

Lemma survives_add_str v suffix : survives (add_str v suffix).
Proof. destruct v; simpl; try apply survives_raise. apply survives_ret. Qed.

Lemma survives_for_each {A} (l : list A) (body : A → M unit) :
  (∀ x, survives (body x)) → survives (for_each l body).
Proof.
  intros H. induction l as [|x l IH]; simpl; [apply survives_ret|].
  apply survives_bind; [apply H|]. by intros _.
Qed.

(** Decompose a call into the calls it is made of. *)
Ltac survives_with leaf :=
  first
    [ leaf
    | apply survives_ret | apply survives_raise | apply survives_timeout | apply survives_lift
    | apply survives_print | apply survives_sleep | apply survives_path_exists
    | apply survives_client_get | apply survives_props_item | apply survives_getitem
    | apply survives_add_str
    | apply survives_on_fs; intros ? ?;
      first [apply mkdir_parents_keeps | apply mkdir_exist_ok_keeps | apply write_file_keeps]
    | apply survives_for_each; intros ?
    | apply survives_bind; [|intros ?]
    | match goal with
      | |- survives (match ?x with _ => _ end) => destruct x
      | |- survives (if ?b then _ else _) => destruct b
      end ].

Lemma survives_get_loop remote n url indent : survives (get_loop remote n url indent).
Proof.
  induction n as [|n IH]; simpl; [apply survives_timeout|].
  unfold raise_for_status, indent_print. repeat survives_with ltac:(exact IH).
Qed.

Lemma survives_get remote fuel url indent : survives (get remote fuel url indent).
Proof. unfold get. destruct url; try apply survives_raise. apply survives_get_loop. Qed.

Lemma survives_get_json_loop remote fuel n link values :
  survives (get_json_loop remote fuel n link values).
Proof.
  revert link values. induction n as [|n IH]; intros link values; simpl.
  - destruct (truthy link); [apply survives_timeout|apply survives_ret].
  - destruct (truthy link); [|apply survives_ret].
    repeat survives_with ltac:(first [apply survives_get | apply IH]).
Qed.

Lemma survives_get_json remote fuel url : survives (get_json remote fuel url).
Proof. apply survives_get_json_loop. Qed.

Lemma survives_sub_tags n opening repl s :
  (∀ tag, survives (repl tag)) → survives (sub_tags n opening repl s).
Proof.
  intros H. revert s. induction n as [|n IH]; intros s.
  - destruct s; simpl; [apply survives_ret|apply survives_timeout].
  - destruct s as [|c s]; simpl; [apply survives_ret|].
    repeat survives_with ltac:(first [apply H | apply IH]).
Qed.

Lemma survives_download_image ext remote fuel out_dir title indent tag :
  survives (download_image ext remote fuel out_dir title indent tag).
Proof.
  unfold download_image, parse_props, indent_print.
  repeat survives_with ltac:(apply survives_get).
Qed.

Lemma survives_download_attachment ext remote fuel out_dir title indent tag :
  survives (download_attachment ext remote fuel out_dir title indent tag).
Proof.
  unfold download_attachment, parse_props, indent_print.
  repeat survives_with ltac:(apply survives_get).
Qed.

Lemma survives_download_page ext remote fuel url path title indent :
  survives (download_page ext remote fuel url path title indent).
Proof.
  unfold download_page, indent_print.
  repeat survives_with
    ltac:(first [ apply survives_get
                | apply survives_sub_tags; intros ?;
                  first [apply survives_download_image | apply survives_download_attachment] ]).
Qed.

Lemma survives_filter_items ext items sel name indent :
  survives (filter_items ext items sel name indent).
Proof. unfold filter_items, indent_print. repeat survives_with fail. Qed.

Lemma survives_pages_loop ext remote fuel pages ld page_dir indent :
  survives (pages_loop ext remote fuel pages ld page_dir indent).
Proof.
  revert ld page_dir. induction pages as [|[order page] pages IH]; intros ld page_dir; simpl.
  - apply survives_ret.
  - unfold indent_print.
    repeat survives_with ltac:(first [apply survives_download_page | apply IH]).
Qed.

Lemma survives_download_pages ext remote fuel pages path sel indent :
  survives (download_pages ext remote fuel pages path sel indent).
Proof.
  unfold download_pages.
  apply survives_bind; [apply survives_filter_items|]. intros [pages' sel'].
  apply survives_bind; [apply survives_lift|]. intros entries.
  apply survives_pages_loop.
Qed.

Lemma survives_download_sections ext remote fuel sections path sel indent :
  survives (download_sections ext remote fuel sections path sel indent).
Proof.
  unfold download_sections.
  apply survives_bind; [apply survives_filter_items|]. intros [sections' sel'].
  unfold indent_print.
  repeat survives_with ltac:(first [apply survives_get_json | apply survives_download_pages]).
Qed.

Lemma survives_download_section_groups ext remote fuel groups path sel indent :
  survives (download_section_groups ext remote fuel groups path sel indent).
Proof.
  unfold download_section_groups.
  apply survives_bind; [apply survives_filter_items|]. intros [groups' sel'].
  unfold indent_print.
  repeat survives_with
    ltac:(first [apply survives_get_json | apply survives_download_sections]).
Qed.

Lemma survives_download_notebooks ext remote fuel path sel indent :
  survives (download_notebooks ext remote fuel path sel indent).
Proof.
  unfold download_notebooks.
  apply survives_bind; [apply survives_get_json|]. intros notebooks.
  apply survives_bind; [apply survives_print|]. intros _.
  apply survives_bind; [apply survives_print|]. intros _.
  apply survives_bind; [apply survives_for_each; intros ?; apply survives_print|]. intros _.
  apply survives_bind; [apply survives_print|]. intros _.
  apply survives_bind; [apply survives_filter_items|]. intros [notebooks' sel'].
  unfold indent_print.
  repeat survives_with
    ltac:(first [ apply survives_get_json | apply survives_download_sections
                | apply survives_download_section_groups ]).
Qed.

(** X16. An export only adds to the output tree.  Whatever is there
    before [main_logic] runs, a file or a directory, is there when it returns
    and also when it raises half way, a directory still a directory and a
    file still a file: nothing is removed, and the export can be run on top
    of an earlier one. *)
Theorem export_only_adds (ext : Externals) (remote : Remote) (fuel : nat)
    (select outdir : string) (w w' : World) (p : Path) (n : node) :
  last_world (main_logic ext remote fuel (main_command select outdir) w) = Some w' →
  fs w !! p = Some n →
  ∃ n', fs w' !! p = Some n' ∧ same_kind n n'.
Proof.
  intros Hrun Hp.
  assert (survives (main_logic ext remote fuel (main_command select outdir))) as Hs.
  { unfold main_logic. apply survives_bind; [apply survives_download_notebooks|].
    intros _. apply survives_print. }
  specialize (Hs w).
  destruct (main_logic _ _ _ _ w) as [a w1|e w1|]; simpl in Hrun; [| |done];
    injection Hrun as ->; by apply Hs.
Qed.

Lemma export_only_adds_witness :
  ∃ n', fs (Demo.world_of (main_logic Demo.ext (Failing.remote 403) 2
                             (main_command "" "out") Attachments.with_pdf))
        !! ["out"; "Page.FILES"; "sheet.pdf"] = Some n'
        ∧ same_kind (File "%PDF") n'.
Proof.
  apply (export_only_adds Demo.ext (Failing.remote 403) 2 "" "out" Attachments.with_pdf).
  - vm_compute. reflexivity.
  - reflexivity.
Defined.

(** ** Section groups *)

Lemma for_each_fmap {A} (f : A → A) (l : list A) (body : A → M unit) w :
  (∀ x w', body (f x) w' = body x w') →
  for_each (f <$> l) body w = for_each l body w.
Proof.
  intros H. revert w. induction l as [|x l IH]; intros w; [done|].
  rewrite fmap_cons. cbn [for_each]. unfold mbind, M_bind. rewrite H.
  destruct (body x w) as [[] w1| |]; [|done..]. apply IH.
Qed.

Lemma bind_unfold {A B} (m : M A) (f : A → M B) w :
  (m ≫= f) w
  = match m w with
    | Ok a w' => f a w'
    | Raise e w' => Raise e w'
    | Timeout => Timeout
    end.
Proof. done. Qed.

Section Fields.

Variables (k : string) (v : val).
Hypothesis not_displayName : k ≠ "displayName".
Hypothesis not_title : k ≠ "title".

Lemma item_name_insert (it : item) : item_name (<[k := v]> it) = item_name it.
Proof. unfold item_name. by rewrite !lookup_insert_ne. Qed.

Lemma matching_insert ext items segment :
  matching ext (insert k v <$> items) segment
  = match matching ext items segment with
    | inl e => inl e
    | inr kept => inr (insert k v <$> kept)
    end.
Proof.
  induction items as [|it items IH]; [done|].
  rewrite fmap_cons. cbn [matching]. rewrite item_name_insert, IH.
  destruct (val_lower ext (item_name it)) as [|name]; [done|].
  destruct (matching ext items segment) as [|kept]; [done|].
  by destruct (fnmatch ext name (str_lower ext segment)).
Qed.

Lemma filter_items_insert ext items sel name indent w :
  filter_items ext (insert k v <$> items) sel name indent w
  = match filter_items ext items sel name indent w with
    | Ok (kept, rest) w' => Ok (insert k v <$> kept, rest) w'
    | Raise e w' => Raise e w'
    | Timeout => Timeout
    end.
Proof.
  unfold filter_items. destruct sel as [|segment rest]; [done|].
  rewrite matching_insert.
  destruct (matching ext items segment) as [|kept]; [done|]. simpl.
  unfold mbind, M_bind, mret, M_ret.
  destruct kept; done.
Qed.

End Fields.

(** X17. Of a section group the walker reads the name and the sections
    URL and nothing else: a group record with any other field added or
    changed, its own [sectionGroupsUrl] for one, is walked in exactly the same
    way.  Groups inside a group are never asked for. *)
Theorem section_groups_one_level (ext : Externals) (remote : Remote) (fuel : nat)
    (groups : list item) (k : string) (v : val) (path : Path) (sel : list string)
    (indent : nat) (w : World) :
  k ≠ "displayName" → k ≠ "title" → k ≠ "sectionsUrl" →
  download_section_groups ext remote fuel (insert k v <$> groups) path sel indent w
  = download_section_groups ext remote fuel groups path sel indent w.
Proof.
  intros Hd Ht Hs. unfold download_section_groups.
  rewrite (bind_unfold (filter_items ext (insert k v <$> groups) _ _ _)).
  rewrite (bind_unfold (filter_items ext groups _ _ _)).
  rewrite filter_items_insert by done.
  destruct (filter_items ext groups sel "section groups" indent w) as [[kept rest] w1| |];
    [|done..].
  apply for_each_fmap. intros sg w2.
  unfold getitem. by rewrite !lookup_insert_ne.
Qed.

Lemma section_groups_one_level_witness :
  download_section_groups Demo.ext Nested.remote 2
    (insert "sectionGroupsUrl" (VStr "sg/Archive/groups") <$> [Nested.group]) ["out"] [] 0
    Demo.start
  = download_section_groups Demo.ext Nested.remote 2 [Nested.group] ["out"] [] 0 Demo.start.
Proof. apply section_groups_one_level; done. Defined.

(** A group with a group of its own: the inner one is not requested. *)
Example nested_group_example :
  requests (Demo.world_of
    (download_section_groups Demo.ext Nested.remote 2
       [<["sectionGroupsUrl" := VStr "sg/Archive/groups"]> Nested.group] ["out"] [] 0
       Demo.start))
  = ["sg/Archive/sections"; "sec/Old/pages?pagelevel=true"; "page/Page"].
Proof. vm_compute. reflexivity. Qed.

(** ** What a returned page materialization leaves *)

Lemma get_loop_none remote n url indent w w' :
  get_loop remote n url indent w = Ok None w' →
  ∃ t, is_unavailable (status_code (remote t url)) = true.
Proof.
  revert w. induction n as [|n IH]; intros w; [done|]. simpl.
  unfold mbind at 1, M_bind at 1, client_get.
  set (r := remote (length (requests w)) url).
  destruct (Z.eqb_spec (status_code r) 429).
  { unfold indent_print, print, sleep, mbind, M_bind. apply IH. }
  destruct (Z.eqb_spec (status_code r) 500) as [E|].
  { intros _. exists (length (requests w)). fold r. unfold is_unavailable. by rewrite E. }
  destruct (Z.eqb_spec (status_code r) 504) as [E|].
  { intros _. exists (length (requests w)). fold r. unfold is_unavailable. by rewrite E. }
  unfold raise_for_status, mbind, M_bind. by destruct (_ && _).
Qed.

(** X18. When a page materialization returns, the page file is on disk,
    unless the remote answered the page with a 500 or a 504: a page the
    remote never reports unavailable is there after the call, fetched now or
    found there.  From then on a page of the same title in the same
    directory, whatever its URL, is skipped without a request: of two pages
    that share a title and a directory only the first is exported. *)
Theorem returned_page_is_on_disk (ext : Externals) (remote : Remote) (fuel : nat)
    (url : string) (path : Path) (title : string) (indent : nat) (w w' : World) :
  (∀ t, is_unavailable (status_code (remote t url)) = false) →
  download_page ext remote fuel (VStr url) path title indent w = Ok tt w' →
  exists_ (fs w') (path </> (title +:+ ".html")) = true
  ∧ ∀ other indent',
      ∃ w'', download_page ext remote fuel other path title indent' w' = Ok tt w''
             ∧ fs w'' = fs w'
             ∧ requests w'' = requests w'.
Proof.
  intros Hav Hrun.
  assert (exists_ (fs w') (path </> (title +:+ ".html")) = true) as He.
  { unfold download_page in Hrun.
    unfold mbind at 1, M_bind at 1, path_exists in Hrun.
    destruct (exists_ (fs w) (path </> (title +:+ ".html"))) eqn:E.
    { by injection Hrun as <-. }
    apply bind_inv in Hrun as ([] & wa & _ & Hrun).
    apply bind_inv in Hrun as (x & wb & Hget & Hrun).
    destruct x as [r|].
    - apply bind_inv in Hrun as ([] & wc & _ & Hrun).
      apply bind_inv in Hrun as (c1 & wd & _ & Hrun).
      apply bind_inv in Hrun as (c2 & we & _ & Hrun).
      apply on_fs_inv in Hrun as (t2 & Hw & ->). simpl.
      by eapply exists_after_write.
    - unfold get in Hget. apply get_loop_none in Hget as (t & Ht).
      by rewrite Hav in Ht. }
  split; [done|]. intros other indent'.
  eexists. by rewrite download_page_present.
Qed.

Lemma returned_page_is_on_disk_witness :
  let after := Demo.world_of
    (download_page Demo.ext Demo.outline_remote 1 (VStr "page/Root") ["out"; "Plans.NOTES"]
       "Root" 0 Demo.start) in
  exists_ (fs after) (["out"; "Plans.NOTES"] </> "Root.html") = true
  ∧ ∀ other indent',
      ∃ w'', download_page Demo.ext Demo.outline_remote 1 other ["out"; "Plans.NOTES"] "Root"
               indent' after = Ok tt w''
             ∧ fs w'' = fs after
             ∧ requests w'' = requests after.
Proof.
  apply (returned_page_is_on_disk Demo.ext Demo.outline_remote 1 "page/Root"
           ["out"; "Plans.NOTES"] "Root" 0 Demo.start).
  - intros t. reflexivity.
  - vm_compute. reflexivity.
Defined.
